(** * scgolang/play: the sound registry and its key=value parameter parser

    A shallow embedding of [play.go] (package [play]) together with models of
    the few Go library functions it calls:

    - [strings.Split] (with [Index] and [Count], which it is built from),
    - [fmt.Sprintf] applied to a format string and no operands, which is what
      [errors.Errorf] of github.com/pkg/errors runs on its argument,
    - [strconv.ParseFloat] at bit size 32,
    - the error values of github.com/pkg/errors.

    Go strings are byte strings, and so are Rocq's: one [ascii] is one byte.
    The embedding is sequential: every method body runs as one step, which is
    what the [sync.RWMutex] of [App] guarantees for the parts that touch the
    registry.  *)

From Stdlib Require Import ZArith Lia Ascii.
From Stdlib Require String.
From Stdlib Require Import Floats.SpecFloat.
From stdpp Require Import base option list strings gmap.

Local Open Scope Z_scope.
Local Open Scope stdpp_scope.

(** ** Byte-level helpers shared by the library models *)

Definition byte_of (c : ascii) : Z := Z.of_N (N_of_ascii c).

Definition byte_in (lo hi c : ascii) : bool :=
  (byte_of lo <=? byte_of c) && (byte_of c <=? byte_of hi).

Definition byte_eqb (a b : ascii) : bool := Ascii.eqb a b.

(** [s[n:]] *)
Fixpoint slice_from (n : nat) (s : string) : string :=
  match n, s with
  | O, _ => s
  | S n', String _ s' => slice_from n' s'
  | S _, EmptyString => EmptyString
  end.

(** [s[:n]] *)
Fixpoint slice_to (n : nat) (s : string) : string :=
  match n, s with
  | O, _ => EmptyString
  | S n', String c s' => String c (slice_to n' s')
  | S _, EmptyString => EmptyString
  end.

(** The byte [c] occurs in [s]. *)
Fixpoint contains_byte (c : ascii) (s : string) : bool :=
  match s with
  | EmptyString => false
  | String d s' => byte_eqb d c || contains_byte c s'
  end.

(** The number of occurrences of the byte [c] in [s]. *)
Fixpoint count_byte (c : ascii) (s : string) : nat :=
  match s with
  | EmptyString => O
  | String d s' => if byte_eqb d c then S (count_byte c s') else count_byte c s'
  end.

(** ** Error values

    Go's [error] interface, closed over the implementations that reach
    [play.go]: [*errors.errorString] of the standard library (what
    [strconv.ErrSyntax] and [strconv.ErrRange] are), [*fundamental] of
    github.com/pkg/errors (what its [New] and [Errorf] return; the recorded
    call stack is left out), the [withMessage] that its [Wrap] builds, and
    [*strconv.NumError].  Go's [nil] error is [None] of [option error]. *)

Inductive error : Type :=
  | errorString (s : string)
  | fundamental (msg : string)
  | withMessage (cause : error) (msg : string)
  | NumError (Func Num : string) (Err : error).

(** ** Package strings *)

Module strings.

(** [strings.Index]: the offset of the first occurrence of [substr] in [s];
    Go's -1 is [None]. *)
Fixpoint Index (s substr : string) : option nat :=
  if String.prefix substr s then Some O
  else match s with
       | EmptyString => None
       | String _ s' => S <$> Index s' substr
       end.

(** The loop of [strings.Count] for a non-empty [substr]:
    [for { i := Index(s, substr); if i == -1 { return n }; n++;
           s = s[i+len(substr):] }].
    Every round removes at least one byte, so [fuel] bounded by the length
    of [s] (plus one) is never exhausted. *)
Fixpoint Count_loop (fuel : nat) (s substr : string) : nat :=
  match fuel with
  | O => O
  | S fuel' =>
      match Index s substr with
      | None => O
      | Some i => S (Count_loop fuel' (slice_from (i + String.length substr) s) substr)
      end
  end.

(** [strings.Count]; for the empty [substr] Go counts code points plus one,
    the model counts bytes plus one. *)
Definition Count (s substr : string) : nat :=
  match substr with
  | EmptyString => S (String.length s)
  | _ => Count_loop (S (String.length s)) s substr
  end.

(** [explode]: one string per byte (Go: per UTF-8 sequence). *)
Fixpoint explode (s : string) : list string :=
  match s with
  | EmptyString => []
  | String c s' => String c EmptyString :: explode s'
  end.

(** The loop of [genSplit] with [sepSave = 0]: [n] is the number of
    separators still to be cut at,
    [for i < n { m := Index(s, sep); if m < 0 { break };
                 a[i] = s[:m]; s = s[m+len(sep):]; i++ }; a[i] = s]. *)
Fixpoint genSplit_loop (n : nat) (s sep : string) : list string :=
  match n with
  | O => [s]
  | S n' =>
      match Index s sep with
      | None => [s]
      | Some m => slice_to m s :: genSplit_loop n' (slice_from (m + String.length sep) s) sep
      end
  end.

(** [strings.Split(s, sep)] is [genSplit(s, sep, 0, -1)]: with a negative
    count, [n = Count(s, sep) + 1] pieces are cut, all of them. *)
Definition Split (s sep : string) : list string :=
  match sep with
  | EmptyString => explode s
  | _ => genSplit_loop (Count s sep) s sep
  end.

End strings.

(** ** Package unicode/utf8 *)

Module utf8.

Definition in_range (lo hi : Z) (c : ascii) : bool :=
  (lo <=? byte_of c) && (byte_of c <=? hi).

(** The replacement character U+FFFD as [writeRune] encodes it. *)
Definition RuneError : string :=
  String (ascii_of_nat 239) (String (ascii_of_nat 191) (String (ascii_of_nat 189) EmptyString)).

(** [first[s0]]: the length of the sequence a leading byte announces and the
    range its second byte must lie in; [None] for the bytes no sequence of
    two or more bytes starts with. *)
Definition first (s0 : ascii) : option (nat * (Z * Z)) :=
  if in_range 0xC2 0xDF s0 then Some (2%nat, (0x80, 0xBF))
  else if in_range 0xE0 0xE0 s0 then Some (3%nat, (0xA0, 0xBF))
  else if in_range 0xE1 0xEC s0 then Some (3%nat, (0x80, 0xBF))
  else if in_range 0xED 0xED s0 then Some (3%nat, (0x80, 0x9F))
  else if in_range 0xEE 0xEF s0 then Some (3%nat, (0x80, 0xBF))
  else if in_range 0xF0 0xF0 s0 then Some (4%nat, (0x90, 0xBF))
  else if in_range 0xF1 0xF3 s0 then Some (4%nat, (0x80, 0xBF))
  else if in_range 0xF4 0xF4 s0 then Some (4%nat, (0x80, 0x8F))
  else None.

(** [utf8.DecodeRuneInString]: the rune is kept as the bytes that
    [writeRune] produces for it, next to the number of bytes consumed. *)
Definition DecodeRuneInString (s : string) : string * nat :=
  match s with
  | EmptyString => (RuneError, 0%nat)
  | String s0 t =>
      if in_range 0 0x7F s0 then (String s0 EmptyString, 1%nat)
      else match first s0 with
           | None => (RuneError, 1%nat)
           | Some (sz, (lo, hi)) =>
               if (String.length s <? sz)%nat then (RuneError, 1%nat)
               else match t with
                    | String s1 (String s2 (String s3 _)) =>
                        if negb (in_range lo hi s1) then (RuneError, 1%nat)
                        else if (sz <=? 2)%nat then (slice_to 2 s, 2%nat)
                        else if negb (in_range 0x80 0xBF s2) then (RuneError, 1%nat)
                        else if (sz <=? 3)%nat then (slice_to 3 s, 3%nat)
                        else if negb (in_range 0x80 0xBF s3) then (RuneError, 1%nat)
                        else (slice_to 4 s, 4%nat)
                    | String s1 (String s2 EmptyString) =>
                        if negb (in_range lo hi s1) then (RuneError, 1%nat)
                        else if (sz <=? 2)%nat then (slice_to 2 s, 2%nat)
                        else if negb (in_range 0x80 0xBF s2) then (RuneError, 1%nat)
                        else (slice_to 3 s, 3%nat)
                    | String s1 EmptyString =>
                        if negb (in_range lo hi s1) then (RuneError, 1%nat)
                        else (slice_to 2 s, 2%nat)
                    | EmptyString => (RuneError, 1%nat)
                    end
           end
  end.

End utf8.

(** ** Package fmt: [Sprintf] of a format string with no operands

    [errors.Errorf(format)] returns an error whose message is
    [fmt.Sprintf(format)].  [play.go] passes it a format assembled from user
    input and no operands, so only that instance of [doPrintf] is embedded:
    [len(a) = 0] and [argNum] stays 0 throughout. *)

Module fmt.

Definition percentBangString : string := "%!".
Definition missingString : string := "(MISSING)".
Definition badIndexString : string := "(BADINDEX)".
Definition badWidthString : string := "%!(BADWIDTH)".
Definition badPrecString : string := "%!(BADPREC)".
Definition noVerbString : string := "%!(NOVERB)".

Definition is_digit (c : ascii) : bool := byte_in "0" "9" c.

Definition tooLarge (x : Z) : bool := (1000000 <? x) || (x <? -1000000).

(** [parsenum(s, start, end)] on the bytes [s[start:end]]: the number, whether
    a digit was read, and what is left of those bytes.  On overflow Go
    returns [newi = end], that is, nothing is left. *)
Fixpoint parsenum_loop (s : string) (num : Z) (isnum : bool) : Z * bool * string :=
  match s with
  | EmptyString => (num, isnum, s)
  | String c s' =>
      if is_digit c then
        if tooLarge num then (0, false, EmptyString)
        else parsenum_loop s' (num * 10 + (byte_of c - byte_of "0")) true
      else (num, isnum, s)
  end.

Definition parsenum (s : string) : Z * bool * string := parsenum_loop s 0 false.

(** [parseArgNumber(format)], called on a [format] that starts with '[':
    the index, the number of bytes to skip and whether it is an index. *)
Definition parseArgNumber (format : string) : Z * nat * bool :=
  if (String.length format <? 3)%nat then (0, 1%nat, false)
  else match strings.Index (slice_from 1 format) "]" with
       | None => (0, 1%nat, false)
       | Some j =>
           let i := S j in
           let '(width, ok, rest) := parsenum (slice_to j (slice_from 1 format)) in
           if negb ok || negb (String.eqb rest EmptyString) then (0, S i, false)
           else (width - 1, S i, true)
       end.

(** [p.argNumber(argNum, format, i, 0)] on [format[i:]]: what is left of the
    format, [found], and the new [p.goodArgNum].  With no operands no index
    is in range. *)
Definition argNumber (format : string) (goodArgNum : bool) : string * bool * bool :=
  match format with
  | String c _ =>
      if byte_eqb c "[" then
        let '(_, wid, ok) := parseArgNumber format in
        (slice_from wid format, ok, false)
      else (format, false, goodArgNum)
  | EmptyString => (format, false, goodArgNum)
  end.

(** The [simpleFormat] loop: flags are read and have no effect here. *)
Fixpoint skip_flags (format : string) : string :=
  match format with
  | String c s' =>
      if byte_eqb c "#" || byte_eqb c "0" || byte_eqb c "+" || byte_eqb c "-" || byte_eqb c " "
      then skip_flags s' else format
  | EmptyString => format
  end.

(** One verb: [format] is what follows the '%'.  Returns the text written
    and what is left of the format, [None] when the loop is left. *)
Definition verb (format : string) : string * option string :=
  let s1 := skip_flags format in
  let '(s2, afterIndex, good) := argNumber s1 true in
  (* width *)
  let '(out_w, s3, afterIndex, good) :=
    match s2 with
    | String c s' =>
        if byte_eqb c "*" then (badWidthString, s', false, good)
        else let '(_, widPresent, s') := parsenum s2 in
             (EmptyString, s', afterIndex, if afterIndex && widPresent then false else good)
    | EmptyString => (EmptyString, s2, afterIndex, good)
    end in
  (* precision *)
  let '(out_p, s4, afterIndex, good) :=
    match s3 with
    | String c s' =>
        if byte_eqb c "." then
          let good := if afterIndex then false else good in
          let '(s'', afterIndex, good) := argNumber s' good in
          match s'' with
          | String d t =>
              if byte_eqb d "*" then (badPrecString, t, false, good)
              else let '(_, _, t) := parsenum s'' in (EmptyString, t, afterIndex, good)
          | EmptyString => (EmptyString, s'', afterIndex, good)
          end
        else (EmptyString, s3, afterIndex, good)
    | EmptyString => (EmptyString, s3, afterIndex, good)
    end in
  let '(s5, _, good) :=
    if afterIndex then (s4, afterIndex, good) else argNumber s4 good in
  match s5 with
  | EmptyString => (out_w +:+ out_p +:+ noVerbString, None)
  | String c _ =>
      let '(v, size) :=
        if utf8.in_range 0 0x7F c then (String c EmptyString, 1%nat)
        else utf8.DecodeRuneInString s5 in
      let out :=
        if String.eqb v "%" then "%"
        else if negb good then percentBangString +:+ v +:+ badIndexString
        else percentBangString +:+ v +:+ missingString in
      (out_w +:+ out_p +:+ out, Some (slice_from size s5))
  end.

(** The text up to the first '%' and the rest from that '%' on. *)
Fixpoint literal (format : string) : string * string :=
  match format with
  | EmptyString => (EmptyString, EmptyString)
  | String c s' =>
      if byte_eqb c "%" then (EmptyString, format)
      else let '(l, r) := literal s' in (String c l, r)
  end.

(** [formatLoop]; every round consumes at least the '%'. *)
Fixpoint doPrintf (fuel : nat) (format : string) : string :=
  match fuel with
  | O => EmptyString
  | S fuel' =>
      let '(lit, rest) := literal format in
      match rest with
      | EmptyString => lit
      | String _ after =>
          match verb after with
          | (out, None) => lit +:+ out
          | (out, Some next) => lit +:+ out +:+ doPrintf fuel' next
          end
      end
  end.

Definition Sprintf (format : string) : string :=
  doPrintf (S (String.length format)) format.

End fmt.

(** ** Package strconv: [ParseFloat]

    The syntax is that of Go 1.13 and later (hexadecimal floats, underscores
    between digits).  Floating-point values are [spec_float]s of the standard
    library; a [float32] is one that is representable with a 24-bit
    significand and [emax = 128].  [readFloat] keeps every digit of the mantissa (Go keeps 19
    and works from the text again when that is not enough), and the value is
    rounded to the nearest float, ties to even, as [ParseFloat] documents. *)

Module strconv.

Definition ErrSyntax : error := errorString "invalid syntax".
Definition ErrRange : error := errorString "value out of range".

Definition fnParseFloat : string := "ParseFloat".

Definition syntaxError (fn str : string) : error := NumError fn str ErrSyntax.
Definition rangeError (fn str : string) : error := NumError fn str ErrRange.

(** [lower(c)] is [c | ('x' - 'X')]. *)
Definition lower (c : ascii) : ascii := ascii_of_N (N.lor (N_of_ascii c) 32).

Definition is_digit (c : ascii) : bool := byte_in "0" "9" c.

Fixpoint commonPrefixLenIgnoreCase (s prefix : string) : nat :=
  match s, prefix with
  | String c s', String p prefix' =>
      let c := if byte_in "A" "Z" c then ascii_of_N (N_of_ascii c + 32) else c in
      if byte_eqb c p then S (commonPrefixLenIgnoreCase s' prefix') else O
  | _, _ => O
  end.

(** [special]: the value and the number of bytes read when [s] starts with
    an infinity or a NaN. *)
Definition special (s : string) : option (spec_float * nat) :=
  let inf (sign : bool) (nsign : nat) (s : string) :=
    let n := commonPrefixLenIgnoreCase s "infinity" in
    let n := if (3 <? n)%nat && (n <? 8)%nat then 3%nat else n in
    if (n =? 3)%nat || (n =? 8)%nat then Some (S754_infinity sign, (nsign + n)%nat)
    else None in
  match s with
  | EmptyString => None
  | String c s' =>
      if byte_eqb c "+" then inf false 1%nat s'
      else if byte_eqb c "-" then inf true 1%nat s'
      else if byte_eqb c "i" || byte_eqb c "I" then inf false 0%nat s
      else if byte_eqb c "n" || byte_eqb c "N" then
        if (commonPrefixLenIgnoreCase s "nan" =? 3)%nat then Some (S754_nan, 3%nat) else None
      else None
  end.

(** [underscoreOK] from the base prefix on: [saw] is the last byte class
    seen, '0' for a digit or the prefix, '_' for an underscore, '!' (and
    '^' at the start) for anything else. *)
Fixpoint underscoreOK_loop (hex : bool) (saw : ascii) (s : string) : bool :=
  match s with
  | EmptyString => negb (byte_eqb saw "_")
  | String c s' =>
      if is_digit c || (hex && byte_in "a" "f" (lower c)) then underscoreOK_loop hex "0" s'
      else if byte_eqb c "_" then
        if negb (byte_eqb saw "0") then false else underscoreOK_loop hex "_" s'
      else if byte_eqb saw "_" then false
      else underscoreOK_loop hex "!" s'
  end.

Definition underscoreOK (s : string) : bool :=
  let s :=
    match s with
    | String c s' => if byte_eqb c "-" || byte_eqb c "+" then s' else s
    | EmptyString => s
    end in
  match s with
  | String c0 (String c1 s') =>
      if byte_eqb c0 "0" &&
         (byte_eqb (lower c1) "b" || byte_eqb (lower c1) "o" || byte_eqb (lower c1) "x")
      then underscoreOK_loop (byte_eqb (lower c1) "x") "0" s'
      else underscoreOK_loop false "^" s
  | _ => underscoreOK_loop false "^" s
  end.

(** The state of the digit loop of [readFloat]. *)
Record digits : Type := mkDigits {
  mantissa : Z;
  nd : Z;
  dp : Z;
  sawdot : bool;
  sawdigits : bool;
  underscores : bool
}.

(** The digit loop, from [s[i:]]: what is left, the new [i] and the state. *)
Fixpoint digits_loop (base16 : bool) (s : string) (i : nat) (d : digits)
  : string * nat * digits :=
  match s with
  | EmptyString => (s, i, d)
  | String c s' =>
      if byte_eqb c "_" then
        digits_loop base16 s' (S i)
          (mkDigits (mantissa d) (nd d) (dp d) (sawdot d) (sawdigits d) true)
      else if byte_eqb c "." then
        if sawdot d then (s, i, d)
        else digits_loop base16 s' (S i)
               (mkDigits (mantissa d) (nd d) (nd d) true (sawdigits d) (underscores d))
      else if is_digit c then
        if byte_eqb c "0" && (nd d =? 0) then
          digits_loop base16 s' (S i)
            (mkDigits (mantissa d) (nd d) (dp d - 1) (sawdot d) true (underscores d))
        else
          digits_loop base16 s' (S i)
            (mkDigits (mantissa d * (if base16 then 16 else 10) + (byte_of c - byte_of "0"))
               (nd d + 1) (dp d) (sawdot d) true (underscores d))
      else if base16 && byte_in "a" "f" (lower c) then
        digits_loop base16 s' (S i)
          (mkDigits (mantissa d * 16 + (byte_of (lower c) - byte_of "a" + 10))
             (nd d + 1) (dp d) (sawdot d) true (underscores d))
      else (s, i, d)
  end.

(** The digits of the exponent, from [s[i:]]: what is left, the new [i],
    the exponent and whether an underscore was seen. *)
Fixpoint exp_loop (s : string) (i : nat) (e : Z) (underscores : bool)
  : string * nat * Z * bool :=
  match s with
  | EmptyString => (s, i, e, underscores)
  | String c s' =>
      if byte_eqb c "_" then exp_loop s' (S i) e true
      else if is_digit c then
        exp_loop s' (S i) (if e <? 10000 then e * 10 + (byte_of c - byte_of "0") else e)
          underscores
      else (s, i, e, underscores)
  end.

(** [readFloat]: mantissa, exponent (decimal, or binary when [hex]), sign,
    [hex] and the number of bytes read; [None] is [ok = false]. *)
Definition readFloat (s : string) : option (Z * Z * bool * bool * nat) :=
  match s with
  | EmptyString => None
  | String c0 s0 =>
      (* optional sign *)
      let '(t, i, neg) :=
        if byte_eqb c0 "+" then (s0, 1%nat, false)
        else if byte_eqb c0 "-" then (s0, 1%nat, true)
        else (s, 0%nat, false) in
      (* digits *)
      let '(t, i, hex) :=
        match t with
        | String a (String b (String c r)) =>
            if byte_eqb a "0" && byte_eqb (lower b) "x"
            then (String c r, (i + 2)%nat, true) else (t, i, false)
        | _ => (t, i, false)
        end in
      let '(t, i, d) := digits_loop hex t i (mkDigits 0 0 0 false false false) in
      if negb (sawdigits d) then None
      else
        let dp := if sawdot d then dp d else nd d in
        let '(dp, ndMant) := if hex then (dp * 4, nd d * 4) else (dp, nd d) in
        (* optional exponent *)
        let after_exp (t : string) (i : nat) (dp : Z) (underscores : bool) :=
          let exp := if mantissa d =? 0 then 0 else dp - ndMant in
          if underscores && negb (underscoreOK (slice_to i s)) then None
          else Some (mantissa d, exp, neg, hex, i) in
        let no_exp := if hex then None else after_exp t i dp (underscores d) in
        match t with
        | String c t' =>
            if byte_eqb (lower c) (if hex then "p" else "e") then
              match t' with
              | EmptyString => None
              | String c' t'' =>
                  let '(t', i, esign) :=
                    if byte_eqb c' "+" then (t'', (i + 2)%nat, 1)
                    else if byte_eqb c' "-" then (t'', (i + 2)%nat, -1)
                    else (t', (i + 1)%nat, 1) in
                  match t' with
                  | EmptyString => None
                  | String c'' _ =>
                      if negb (is_digit c'') then None
                      else
                        let '(t', i, e, us) := exp_loop t' i 0 (underscores d) in
                        after_exp t' i (dp + e * esign) us
                  end
              end
            else no_exp
        | EmptyString => no_exp
        end
  end.

(** Significand width and [emax] of the two formats. *)
Definition prec (bitSize : Z) : Z := if bitSize =? 32 then 24 else 53.
Definition emax (bitSize : Z) : Z := if bitSize =? 32 then 128 else 1024.

(** The float nearest to [(-1)^neg * mantissa * 2^exp]. *)
Definition atofHex (bitSize : Z) (mantissa exp : Z) (neg : bool) : spec_float :=
  binary_normalize (prec bitSize) (emax bitSize) (if neg then - mantissa else mantissa) exp neg.

(** The float nearest to [(-1)^neg * mantissa * 10^exp]. *)
Definition atofDecimal (bitSize : Z) (mantissa exp : Z) (neg : bool) : spec_float :=
  match mantissa with
  | Zpos m =>
      if 0 <=? exp then
        binary_normalize (prec bitSize) (emax bitSize)
          ((if neg then - mantissa else mantissa) * 10 ^ exp) 0 neg
      else
        match 10 ^ (- exp) with
        | Zpos p =>
            SFdiv (prec bitSize) (emax bitSize) (S754_finite neg m 0) (S754_finite false p 0)
        | _ => S754_nan
        end
  | _ => S754_zero neg
  end.

Definition is_inf (f : spec_float) : bool :=
  match f with S754_infinity _ => true | _ => false end.

(** [atof32] and [atof64]: value, bytes read, error. *)
Definition atof (bitSize : Z) (s : string) : spec_float * nat * option error :=
  match special s with
  | Some (val, n) => (val, n, None)
  | None =>
      match readFloat s with
      | None => (S754_zero false, 0%nat, Some (syntaxError fnParseFloat s))
      | Some (mantissa, exp, neg, hex, n) =>
          let f := if hex then atofHex bitSize mantissa exp neg
                   else atofDecimal bitSize mantissa exp neg in
          (f, n, if is_inf f then Some (rangeError fnParseFloat s) else None)
      end
  end.

Definition is_syntax (err : option error) : bool :=
  match err with
  | Some (NumError _ _ (errorString "invalid syntax")) => true
  | _ => false
  end.

(** [strconv.ParseFloat(s, bitSize)]. *)
Definition ParseFloat (s : string) (bitSize : Z) : spec_float * option error :=
  let '(f, n, err) := atof bitSize s in
  if negb (n =? String.length s)%nat && negb (is_syntax err)
  then (S754_zero false, Some (syntaxError fnParseFloat s))
  else (f, err).

End strconv.

(** The conversion [float32(fv)] of a [float64]. *)
Definition float32 (fv : spec_float) : spec_float :=
  match fv with
  | S754_finite s m e => binary_round 24 128 s m e
  | _ => fv
  end.

(** The [float32] nearest to [m * 2^e]: [f32 3 (-1)] is 1.5. *)
Definition f32 (m e : Z) : spec_float := binary_normalize 24 128 m e false.

(** ** Package github.com/pkg/errors *)

Module errors.

(** [errors.New(message)] *)
Definition New (message : string) : error := fundamental message.

(** [errors.Errorf(format)] with no further arguments: the message is
    [fmt.Sprintf(format)]. *)
Definition Errorf (format : string) : error := fundamental (fmt.Sprintf format).

(** [errors.Wrap(err, message)]: [nil] for a [nil] error. *)
Definition Wrap (err : option error) (message : string) : option error :=
  match err with
  | None => None
  | Some e => Some (withMessage e message)
  end.

End errors.

(** [sub] occurs in [s]. *)
Definition includes (s sub : string) : bool :=
  match strings.Index s sub with Some _ => true | None => false end.

(** [strings.Join(elems, sep)], the inverse that [Split] is measured
    against. *)
Fixpoint Join (elems : list string) (sep : string) : string :=
  match elems with
  | [] => EmptyString
  | [e] => e
  | e :: rest => e +:+ sep +:+ Join rest sep
  end.

(** ** A backend for the examples

    Synthdefs are their names, the server accepts every request, a [range]
    visits the names in the order of the map's list, and [Quote] adds the
    quotes only. *)

Module demo.

Definition UgenFunc : Type := unit.
Definition Synthdef : Type := string.
Definition NewSynthdef (name : string) (f : UgenFunc) : Synthdef := name.

Definition scid_reply (served : list (Synthdef * gmap string spec_float))
    (def : Synthdef) (ctls : gmap string spec_float) : option error := None.

Definition range_order (m : gmap string Synthdef) : list string := (map_to_list m).*1.

Definition Quote (s : string) : string := String "034" (s +:+ String "034" EmptyString).

End demo.

(** ** Package play *)

Section play.

(** Package sc: synthdefs are opaque. *)
Variable UgenFunc : Type.
Variable Synthdef : Type.
Variable NewSynthdef : string -> UgenFunc -> Synthdef.

(** Package scid: what the server answers to a request, given the requests
    it has served before. *)
Variable scid_reply :
  list (Synthdef * gmap string spec_float) -> Synthdef -> gmap string spec_float -> option error.

(** The order in which a [range] over the registry visits its keys. *)
Variable range_order : gmap string Synthdef -> list string.

(** [strconv.Quote], used only to print a [NumError]. *)
Variable Quote : string -> string.

(** The [Error()] method. *)
Fixpoint Error (e : error) : string :=
  match e with
  | errorString s => s
  | fundamental msg => msg
  | withMessage cause msg => msg +:+ ": " +:+ Error cause
  | NumError Func Num Err =>
      "strconv." +:+ Func +:+ ": parsing " +:+ Quote Num +:+ ": " +:+ Error Err
  end.

(** What the program does to the outside: the lines written to standard
    output and the requests sent to the playback backend, oldest first. *)
Record World : Type := mkWorld {
  stdout : list string;
  played : list (Synthdef * gmap string spec_float)
}.

(** [scid.Play(def, ctls)] *)
Definition scid_Play (def : Synthdef) (ctls : gmap string spec_float) (w : World)
  : option error * World :=
  (scid_reply (played w) def ctls, mkWorld (stdout w) (played w ++ [(def, ctls)])).

(** [fmt.Println(name)] *)
Definition Println (name : string) (w : World) : World :=
  mkWorld (stdout w ++ [name]) (played w).

Definition ErrDupl : error := errors.New "sound is already defined".

(** [App]: the two options and the registry ([mu] guards [m] and has no
    state of its own between calls). *)
Record App : Type := mkApp {
  app_list : bool;
  app_sound : string;
  app_m : gmap string Synthdef
}.

(** [New(fs)]: both flags at their defaults, the registry empty. *)
Definition New : App := mkApp false "" ∅.

(** [app.Add(name, f)] *)
Definition Add (app : App) (name : string) (f : UgenFunc) : option error * App :=
  match app_m app !! name with
  | Some _ => (Some ErrDupl, app)
  | None =>
      (None, mkApp (app_list app) (app_sound app) (<[name := NewSynthdef name f]> (app_m app)))
  end.

(** A run of further registrations, the results dropped. *)
Definition Adds (app : App) (more : list (string * UgenFunc)) : App :=
  foldl (fun app nf => (Add app nf.1 nf.2).2) app more.

(** [app.List()] *)
Definition List (app : App) (w : World) : World :=
  foldl (fun w name => Println name w) w (range_order (app_m app)).

(** One round of the loop of [Play] up to the assignment: either the round
    returns from [Play] ([inl], with the returned error), or it goes on to
    assign [float32(fv)] to the key [a[0]] ([inr]).  [len(a) < 2] is the
    case where [a] has no second element. *)
Definition parse_param (param : string) : option error + (string * spec_float) :=
  match strings.Split param "=" with
  | a0 :: a1 :: _ =>
      match strconv.ParseFloat a1 32 with
      | (_, Some err) => inl (errors.Wrap (Some err) "parsing control value")
      | (fv, None) => inr (a0, float32 fv)
      end
  | _ => inl (Some (errors.Errorf ("could not parse key=value from " +:+ param)))
  end.

(** [for _, param := range params { ...; ctls[a[0]] = float32(fv) }] *)
Fixpoint range_params (params : list string) (ctls : gmap string spec_float)
  : option error + gmap string spec_float :=
  match params with
  | [] => inr ctls
  | param :: params' =>
      match parse_param param with
      | inl r => inl r
      | inr (k, v) => range_params params' (<[k := v]> ctls)
      end
  end.

(** [app.Play(sound, params)] *)
Definition Play (app : App) (sound : string) (params : list string) (w : World)
  : option error * World :=
  match app_m app !! sound with
  | None => (Some (errors.Errorf ("unrecognized sound: " +:+ sound)), w)
  | Some def =>
      match range_params params ∅ with
      | inl r => (r, w)
      | inr ctls =>
          let '(r, w') := scid_Play def ctls w in
          (errors.Wrap r "playing synthdef", w')
      end
  end.

(** [app.Run(args)] *)
Definition Run (app : App) (args : list string) (w : World) : option error * World :=
  if app_list app then (None, List app w)
  else Play app (app_sound app) args w.

(** *** The malformed-parameter and unrecognized-sound errors *)

Definition malformed_param (param : string) : error :=
  errors.Errorf ("could not parse key=value from " +:+ param).

Definition unrecognized_sound (sound : string) : error :=
  errors.Errorf ("unrecognized sound: " +:+ sound).

(** Following the words of the specification: a raw parameter cut once, at
    its first '=', into the key and the remainder. *)
Fixpoint cut_first (param : string) : list string :=
  match param with
  | EmptyString => [EmptyString]
  | String c s' =>
      if byte_eqb c "=" then [EmptyString; s']
      else match cut_first s' with
           | k :: rest => String c k :: rest
           | [] => []
           end
  end.

(** One round of the loop as the specification words it: as [parse_param],
    with the parameter cut once, at its first '='. *)
Definition parse_param_cut (param : string) : option error + (string * spec_float) :=
  match cut_first param with
  | a0 :: a1 :: _ =>
      match strconv.ParseFloat a1 32 with
      | (_, Some err) => inl (errors.Wrap (Some err) "parsing control value")
      | (fv, None) => inr (a0, float32 fv)
      end
  | _ => inl (Some (malformed_param param))
  end.

(** A raw parameter without the key=value shape, and one whose value
    segment, the second piece of the split, is not a number. *)
Definition malformed (param : string) : Prop := contains_byte "=" param = false.

Definition unparsable (param : string) : Prop :=
  exists a0 a1 rest fv e,
    strings.Split param "=" = a0 :: a1 :: rest /\ strconv.ParseFloat a1 32 = (fv, Some e).

(** The key of a raw parameter: [a[0]]. *)
Definition param_key (param : string) : string :=
  match strings.Split param "=" with
  | a0 :: _ => a0
  | [] => EmptyString
  end.

(** *** The methods with their mutex

    The four methods again, statement by statement, on a state that also
    holds [app.mu] and a log of what happened, so that the lock discipline can
    be stated.  One goroutine runs; a lock that it cannot get, because another
    holder is recorded in the mutex, blocks it ([Blocked]), and releasing a
    lock that is not held is the runtime's fatal error ([Fatal]). *)

Record RWMutex : Type := mkRWMutex {
  writer : bool;
  readers : nat
}.

Definition unlocked : RWMutex := mkRWMutex false 0.

Inductive event : Type :=
  | EvLock
  | EvUnlock
  | EvRLock
  | EvRUnlock
  | EvPrintln (name : string)
  | EvRequest (def : Synthdef) (ctls : gmap string spec_float).

Inductive fault : Type :=
  | Blocked
  | Fatal (msg : string).

Record State : Type := mkState {
  st_app : App;
  st_mu : RWMutex;
  st_world : World;
  st_log : list event
}.

Definition M (A : Type) : Type := State -> fault + (A * State).

Definition ret {A : Type} (a : A) : M A := fun st => inr (a, st).

Definition bind {A B : Type} (c : M A) (k : A -> M B) : M B :=
  fun st =>
    match c st with
    | inl flt => inl flt
    | inr (a, st') => k a st'
    end.

Notation "'let*' x := c 'in' k" := (bind c (fun x => k))
  (at level 10, x name, c at level 100, k at level 200, only parsing).
Notation "c >>> k" := (bind c (fun _ => k))
  (at level 100, k at level 200, only parsing, right associativity).

(** [app.mu.Lock()] *)
Definition mu_Lock : M unit := fun st =>
  if writer (st_mu st) || negb (readers (st_mu st) =? 0)%nat then inl Blocked
  else inr (tt, mkState (st_app st) (mkRWMutex true (readers (st_mu st))) (st_world st)
                  (st_log st ++ [EvLock])).

(** [app.mu.Unlock()] *)
Definition mu_Unlock : M unit := fun st =>
  if writer (st_mu st)
  then inr (tt, mkState (st_app st) (mkRWMutex false (readers (st_mu st))) (st_world st)
                  (st_log st ++ [EvUnlock]))
  else inl (Fatal "sync: Unlock of unlocked RWMutex").

(** [app.mu.RLock()] *)
Definition mu_RLock : M unit := fun st =>
  if writer (st_mu st) then inl Blocked
  else inr (tt, mkState (st_app st) (mkRWMutex false (S (readers (st_mu st)))) (st_world st)
                  (st_log st ++ [EvRLock])).

(** [app.mu.RUnlock()] *)
Definition mu_RUnlock : M unit := fun st =>
  match readers (st_mu st) with
  | O => inl (Fatal "sync: RUnlock of unlocked RWMutex")
  | S n => inr (tt, mkState (st_app st) (mkRWMutex (writer (st_mu st)) n) (st_world st)
                      (st_log st ++ [EvRUnlock]))
  end.

(** Reading [app] and assigning to [app.m[name]]. *)
Definition get_app : M App := fun st => inr (st_app st, st).

Definition store (name : string) (def : Synthdef) : M unit := fun st =>
  inr (tt, mkState (mkApp (app_list (st_app st)) (app_sound (st_app st))
                      (<[name := def]> (app_m (st_app st))))
             (st_mu st) (st_world st) (st_log st)).

Definition println (name : string) : M unit := fun st =>
  inr (tt, mkState (st_app st) (st_mu st) (Println name (st_world st))
             (st_log st ++ [EvPrintln name])).

Definition request (def : Synthdef) (ctls : gmap string spec_float) : M (option error) :=
  fun st =>
    let '(r, w') := scid_Play def ctls (st_world st) in
    inr (r, mkState (st_app st) (st_mu st) w' (st_log st ++ [EvRequest def ctls])).

(** [for name := range ... { body }] *)
Fixpoint for_each (names : list string) (body : string -> M unit) : M unit :=
  match names with
  | [] => ret tt
  | name :: names' => body name >>> for_each names' body
  end.

(** [app.Add(name, f)] with [app.mu]. *)
Definition Add_mu (name : string) (f : UgenFunc) : M (option error) :=
  mu_Lock >>>
  let* app := get_app in
  match app_m app !! name with
  | Some _ => mu_Unlock >>> ret (Some ErrDupl)
  | None => store name (NewSynthdef name f) >>> mu_Unlock >>> ret None
  end.

(** [app.List()] with [app.mu]. *)
Definition List_mu : M unit :=
  mu_RLock >>>
  let* app := get_app in
  for_each (range_order (app_m app)) println >>>
  mu_RUnlock.

(** [app.Play(sound, params)] with [app.mu]. *)
Definition Play_mu (sound : string) (params : list string) : M (option error) :=
  mu_RLock >>>
  let* app := get_app in
  match app_m app !! sound with
  | None => mu_RUnlock >>> ret (Some (errors.Errorf ("unrecognized sound: " +:+ sound)))
  | Some def =>
      mu_RUnlock >>>
      match range_params params ∅ with
      | inl r => ret r
      | inr ctls =>
          let* r := request def ctls in
          ret (errors.Wrap r "playing synthdef")
      end
  end.

(** [app.Run(args)] with [app.mu]. *)
Definition Run_mu (args : list string) : M (option error) :=
  let* app := get_app in
  if app_list app then List_mu >>> ret None
  else Play_mu (app_sound app) args.

(** A caller's calls of the methods, one after the other, the results
    dropped. *)
Inductive call : Type :=
  | CallAdd (name : string) (f : UgenFunc)
  | CallList
  | CallPlay (sound : string) (params : list string)
  | CallRun (args : list string).

Definition do_call (c : call) : M unit :=
  match c with
  | CallAdd name f => Add_mu name f >>> ret tt
  | CallList => List_mu
  | CallPlay sound params => Play_mu sound params >>> ret tt
  | CallRun args => Run_mu args >>> ret tt
  end.

Fixpoint do_calls (calls : list call) : M unit :=
  match calls with
  | [] => ret tt
  | c :: calls' => do_call c >>> do_calls calls'
  end.

(** The registrations among the calls. *)
Definition adds_of (calls : list call) : list (string * UgenFunc) :=
  omap (fun c => match c with CallAdd name f => Some (name, f) | _ => None end) calls.

(** The requests that a log records, oldest first. *)
Definition requests_of (log : list event) : list (Synthdef * gmap string spec_float) :=
  omap (fun ev => match ev with EvRequest def ctls => Some (def, ctls) | _ => None end) log.

(** * Properties *)

(** ** Slices and bytes *)

Lemma append_nil (r : string) : EmptyString +:+ r = r.
Proof. reflexivity. Qed.

Lemma append_cons (c : ascii) (k r : string) : String c k +:+ r = String c (k +:+ r).
Proof. reflexivity. Qed.

Lemma slice_to_app (k r : string) : slice_to (String.length k) (k +:+ r) = k.
Proof. induction k as [|c k IH]; simpl; [by destruct r | by rewrite IH]. Qed.

Lemma slice_from_app (k r : string) : slice_from (String.length k) (k +:+ r) = r.
Proof. induction k as [|c k IH]; simpl; done. Qed.

Lemma slice_from_app_byte (k : string) (c : ascii) (r : string) :
  slice_from (String.length k + 1) (k +:+ String c r) = r.
Proof. induction k as [|d k IH]; simpl; done. Qed.

Lemma length_app (k r : string) :
  String.length (k +:+ r) = (String.length k + String.length r)%nat.
Proof. induction k as [|c k IH]; simpl; [done | by rewrite IH]. Qed.

Lemma byte_eqb_true (a b : ascii) : byte_eqb a b = true <-> a = b.
Proof. apply Ascii.eqb_eq. Qed.

Lemma byte_eqb_false (a b : ascii) : byte_eqb a b = false <-> a <> b.
Proof. apply Ascii.eqb_neq. Qed.

Lemma contains_byte_app (c : ascii) (k r : string) :
  contains_byte c (k +:+ r) = contains_byte c k || contains_byte c r.
Proof. induction k as [|d k IH]; simpl; [done | by rewrite IH, orb_assoc]. Qed.

Lemma contains_byte_split (c : ascii) (s : string) :
  contains_byte c s = true ->
  exists k r, s = k +:+ String c r /\ contains_byte c k = false.
Proof.
  induction s as [|d s IH]; simpl; [done |].
  destruct (byte_eqb d c) eqn:Hd; simpl.
  - intros _. apply byte_eqb_true in Hd as ->. by exists EmptyString, s.
  - intros (k & r & -> & Hk)%IH. exists (String d k), r. simpl. by rewrite Hd.
Qed.

Lemma count_byte_none (c : ascii) (s : string) :
  contains_byte c s = false -> count_byte c s = 0%nat.
Proof.
  induction s as [|d s IH]; simpl; [done |].
  destruct (byte_eqb d c); simpl; [done | auto].
Qed.

Lemma count_byte_app (c : ascii) (k r : string) :
  count_byte c (k +:+ r) = (count_byte c k + count_byte c r)%nat.
Proof.
  induction k as [|d k IH]; simpl; [done |].
  destruct (byte_eqb d c); simpl; by rewrite IH.
Qed.

(** ** [strings.Split] at a one-byte separator *)

Lemma prefix_byte (c d : ascii) (s : string) :
  String.prefix (String c EmptyString) (String d s) = byte_eqb d c.
Proof.
  simpl. destruct (ascii_dec c d) as [->|Hne].
  - rewrite (proj2 (byte_eqb_true d d) eq_refl). by destruct s.
  - symmetry. apply byte_eqb_false. congruence.
Qed.

Lemma Index_cons (d : ascii) (s substr : string) :
  strings.Index (String d s) substr
  = if String.prefix substr (String d s) then Some O else S <$> strings.Index s substr.
Proof. reflexivity. Qed.

Lemma Index_byte_none (c : ascii) (s : string) :
  contains_byte c s = false -> strings.Index s (String c EmptyString) = None.
Proof.
  induction s as [|d s IH]; [done |].
  intros H. simpl in H. apply orb_false_iff in H as [Hd Hs].
  by rewrite Index_cons, prefix_byte, Hd, IH.
Qed.

Lemma Index_byte_first (c : ascii) (k r : string) :
  contains_byte c k = false ->
  strings.Index (k +:+ String c r) (String c EmptyString) = Some (String.length k).
Proof.
  induction k as [|d k IH]; intros H.
  - by rewrite append_nil, Index_cons, prefix_byte, (proj2 (byte_eqb_true c c) eq_refl).
  - simpl in H. apply orb_false_iff in H as [Hd Hk].
    by rewrite append_cons, Index_cons, prefix_byte, Hd, IH.
Qed.

(** [Count] never runs out of fuel: it counts the separator bytes. *)
Lemma Count_loop_byte (c : ascii) (fuel : nat) (s : string) :
  (String.length s < fuel)%nat ->
  strings.Count_loop fuel s (String c EmptyString) = count_byte c s.
Proof.
  revert s. induction fuel as [|fuel IH]; intros s Hlen; [lia |].
  simpl. destruct (contains_byte c s) eqn:Hs.
  - apply contains_byte_split in Hs as (k & r & -> & Hk).
    rewrite Index_byte_first by done.
    rewrite slice_from_app_byte, count_byte_app, (count_byte_none c k) by done.
    simpl. rewrite (proj2 (byte_eqb_true c c) eq_refl). f_equal. apply IH.
    rewrite length_app in Hlen. simpl in Hlen. lia.
  - rewrite Index_byte_none by done. by rewrite count_byte_none.
Qed.

Lemma Count_byte (c : ascii) (s : string) :
  strings.Count s (String c EmptyString) = count_byte c s.
Proof. unfold strings.Count. apply Count_loop_byte. lia. Qed.

Lemma Split_byte_none (c : ascii) (s : string) :
  contains_byte c s = false -> strings.Split s (String c EmptyString) = [s].
Proof.
  intros H. unfold strings.Split. rewrite Count_byte, count_byte_none by done. done.
Qed.

Lemma Split_byte_cons (c : ascii) (k r : string) :
  contains_byte c k = false ->
  strings.Split (k +:+ String c r) (String c EmptyString)
  = k :: strings.Split r (String c EmptyString).
Proof.
  intros H. unfold strings.Split. rewrite !Count_byte.
  rewrite count_byte_app, (count_byte_none c k) by done.
  simpl. rewrite (proj2 (byte_eqb_true c c) eq_refl). simpl.
  rewrite Index_byte_first by done.
  change (String c r) with (String c EmptyString +:+ r).
  rewrite slice_to_app.
  change (String c EmptyString +:+ r) with (String c r).
  by rewrite slice_from_app_byte.
Qed.

(** ** Occurrences *)

Lemma prefix_refl (s : string) : String.prefix s s = true.
Proof.
  induction s as [|c s IH]; [done |]. cbn. by destruct (ascii_dec c c).
Qed.

Lemma includes_app (a b : string) : includes (a +:+ b) b = true.
Proof.
  unfold includes. induction a as [|c a IH].
  - rewrite append_nil. destruct b as [|d b]; [done |].
    by rewrite Index_cons, prefix_refl.
  - rewrite append_cons, Index_cons.
    destruct (String.prefix b (String c (a +:+ b))); [done |].
    by destruct (strings.Index (a +:+ b) b).
Qed.

(** ** [fmt.Sprintf] without operands *)

Lemma literal_plain (s : string) :
  contains_byte "%" s = false -> fmt.literal s = (s, EmptyString).
Proof.
  induction s as [|c s IH]; simpl; [done |].
  intros [Hc Hs]%orb_false_iff. by rewrite Hc, IH.
Qed.

(** A format without '%' is written out as it is. *)
Lemma Sprintf_plain (s : string) :
  contains_byte "%" s = false -> fmt.Sprintf s = s.
Proof.
  intros H. unfold fmt.Sprintf. cbn [fmt.doPrintf]. by rewrite literal_plain.
Qed.

(** The output starts with the bytes of the format that precede the first
    '%'. *)
Lemma literal_app (a b : string) :
  contains_byte "%" a = false ->
  fmt.literal (a +:+ b) = ((a +:+ (fmt.literal b).1), (fmt.literal b).2).
Proof.
  induction a as [|c a IH]; intros H.
  - rewrite append_nil. by destruct (fmt.literal b).
  - cbn in H. apply orb_false_iff in H as [Hc Ha].
    rewrite append_cons. cbn [fmt.literal]. rewrite Hc, (IH Ha). done.
Qed.

Lemma append_assoc (a b c : string) : (a +:+ b) +:+ c = a +:+ (b +:+ c).
Proof. induction a as [|d a IH]; [done |]. by rewrite !append_cons, IH. Qed.

Lemma Sprintf_prefix (a b : string) :
  contains_byte "%" a = false -> exists t, fmt.Sprintf (a +:+ b) = a +:+ t.
Proof.
  intros Ha. unfold fmt.Sprintf. cbn [fmt.doPrintf]. rewrite (literal_app a b Ha).
  destruct (fmt.literal b) as [l r]. cbn [fst snd].
  destruct r as [|d after]; [by eexists |].
  destruct (fmt.verb after) as [out [next|]]; rewrite append_assoc; by eexists.
Qed.

Lemma Sprintf_head (c : ascii) (s : string) :
  byte_eqb c "%" = false -> exists t, fmt.Sprintf (String c s) = String c t.
Proof.
  intros Hc.
  destruct (Sprintf_prefix (String c EmptyString) s) as [t Ht]; [by cbn; rewrite Hc |].
  by exists t.
Qed.

(** [formatLoop] ends: every helper hands back a suffix of what it was
    given, so the fuel of [Sprintf] is never used up. *)

Lemma length_slice_from (n : nat) (s : string) :
  (String.length (slice_from n s) <= String.length s)%nat.
Proof.
  revert s. induction n as [|n IH]; intros [|c s]; cbn; try lia.
  specialize (IH s). lia.
Qed.

Lemma skip_flags_length (s : string) :
  (String.length (fmt.skip_flags s) <= String.length s)%nat.
Proof.
  induction s as [|c s IH]; cbn; [lia |].
  destruct (_ || _); cbn; lia.
Qed.

Lemma parsenum_loop_length (s : string) (num : Z) (isnum : bool) :
  (String.length (fmt.parsenum_loop s num isnum).2 <= String.length s)%nat.
Proof.
  revert num isnum. induction s as [|c s IH]; intros num isnum; cbn; [lia |].
  destruct (fmt.is_digit c); [| cbn; lia].
  destruct (fmt.tooLarge num); [cbn; lia |].
  specialize (IH (num * 10 + (byte_of c - byte_of "0")) true). lia.
Qed.

Lemma parsenum_length (s : string) (num : Z) (isnum : bool) (rest : string) :
  fmt.parsenum s = (num, isnum, rest) -> (String.length rest <= String.length s)%nat.
Proof.
  unfold fmt.parsenum. intros H.
  pose proof (parsenum_loop_length s 0 false) as Hlen. by rewrite H in Hlen.
Qed.

Lemma argNumber_length (s : string) (good : bool) (rest : string) (found good' : bool) :
  fmt.argNumber s good = (rest, found, good') -> (String.length rest <= String.length s)%nat.
Proof.
  unfold fmt.argNumber. destruct s as [|c s]; [by intros [= <- _ _] |].
  destruct (byte_eqb c "["); [| by intros [= <- _ _]].
  destruct (fmt.parseArgNumber (String c s)) as [[idx wid] ok].
  intros [= <- _ _]. apply length_slice_from.
Qed.

Lemma literal_length (s lit rest : string) :
  fmt.literal s = (lit, rest) -> (String.length rest <= String.length s)%nat.
Proof.
  revert lit rest. induction s as [|c s IH]; intros lit rest; cbn.
  - intros [= _ <-]. cbn. lia.
  - destruct (byte_eqb c "%"); [intros [= _ <-]; cbn; lia |].
    destruct (fmt.literal s) as [l r]. intros [= _ <-]. specialize (IH l r eq_refl). lia.
Qed.

Lemma verb_length (s out next : string) :
  fmt.verb s = (out, Some next) -> (String.length next <= String.length s)%nat.
Proof.
  unfold fmt.verb. intros H.
  pose proof (skip_flags_length s) as H1.
  repeat case_match; simplify_eq;
    repeat match goal with
      | H : fmt.argNumber _ _ = _ |- _ => apply argNumber_length in H
      | H : fmt.parsenum _ = _ |- _ => apply parsenum_length in H
      end;
    match goal with
    | |- (String.length (slice_from ?n ?t) <= _)%nat =>
        pose proof (length_slice_from n t)
    end;
    cbn [String.length] in *; lia.
Qed.

Lemma doPrintf_fuel (fuel : nat) (format : string) :
  (String.length format < fuel)%nat -> fmt.doPrintf fuel format = fmt.Sprintf format.
Proof.
  unfold fmt.Sprintf.
  assert (forall n m s, (String.length s < n)%nat -> (String.length s < m)%nat ->
                        fmt.doPrintf n s = fmt.doPrintf m s) as Hfuel; [| intros; apply Hfuel; lia].
  clear fuel format. induction n as [|n IH]; intros [|m] s Hn Hm; try lia.
  cbn [fmt.doPrintf].
  destruct (fmt.literal s) as [lit rest] eqn:Hlit.
  destruct rest as [|c after]; [done |].
  destruct (fmt.verb after) as [out [next|]] eqn:Hverb; [| done].
  apply literal_length in Hlit. apply verb_length in Hverb. cbn in Hlit.
  f_equal. f_equal. apply IH; lia.
Qed.

(** ** [strconv.ParseFloat] *)

(** Every error of [ParseFloat] is a [NumError] that names the function and
    the input and carries [ErrSyntax] or [ErrRange]. *)
Lemma ParseFloat_error (s : string) (bitSize : Z) (f : spec_float) (e : error) :
  strconv.ParseFloat s bitSize = (f, Some e) ->
  e = NumError "ParseFloat" s strconv.ErrSyntax \/ e = NumError "ParseFloat" s strconv.ErrRange.
Proof.
  unfold strconv.ParseFloat, strconv.atof.
  destruct (strconv.special s) as [[val n]|].
  - destruct (negb (n =? String.length s)%nat && _); intros [= <- <-] || intros [=]. by left.
  - destruct (strconv.readFloat s) as [[[[[mant ex] neg] hex] n]|].
    + destruct (strconv.is_inf _).
      * destruct (negb (n =? String.length s)%nat && _); intros [= <- <-]; [by left | by right].
      * destruct (negb (n =? String.length s)%nat && _); intros [= <- <-] || intros [=]. by left.
    + destruct (negb (0 =? String.length s)%nat && _); intros [= <- <-]; by left.
Qed.

(** ** The registry *)

(** [Add] never replaces or removes a definition. *)
Lemma Add_keeps (app : App) (n n' : string) (f' : UgenFunc) (def : Synthdef) :
  app_m app !! n = Some def -> app_m (Add app n' f').2 !! n = Some def.
Proof.
  intros Hn. unfold Add. destruct (app_m app !! n') as [d|] eqn:Hn'; [done |].
  cbn. rewrite lookup_insert_ne; [done |]. congruence.
Qed.

Lemma Adds_keeps (app : App) (more : list (string * UgenFunc)) (n : string) (def : Synthdef) :
  app_m app !! n = Some def -> app_m (Adds app more) !! n = Some def.
Proof.
  revert app. induction more as [|[n' f'] more IH]; intros app Hn; [done |].
  apply IH. by apply Add_keeps.
Qed.

(** C3. After [Add(n, f)] has succeeded, and after any further
    registrations, a second [Add(n, f')] fails with [ErrDupl] and leaves the
    registry as it was: the definition stored by the first [Add] is still the
    one found under [n]. *)
Theorem Add_twice (app : App) (n : string) (f f' : UgenFunc) (more : list (string * UgenFunc)) :
  (Add app n f).1 = None ->
  let app1 := Adds (Add app n f).2 more in
  Add app1 n f' = (Some ErrDupl, app1) /\
  app_m app1 !! n = Some (NewSynthdef n f) /\
  app_m (Add app1 n f').2 !! n = Some (NewSynthdef n f).
Proof.
  intros Hadd app1.
  assert (Hn : app_m app1 !! n = Some (NewSynthdef n f)).
  { apply Adds_keeps. unfold Add in *.
    destruct (app_m app !! n) as [def|]; [done |]. cbn. apply lookup_insert_eq. }
  assert (Hdup : Add app1 n f' = (Some ErrDupl, app1)) by (unfold Add; by rewrite Hn).
  by rewrite Hdup.
Qed.

Lemma Add_fresh (app : App) (n : string) (f : UgenFunc) :
  app_m app !! n = None ->
  Add app n f = (None, mkApp (app_list app) (app_sound app) (<[n := NewSynthdef n f]> (app_m app))).
Proof. intros H. unfold Add. by rewrite H. Qed.

Lemma Add_other (app : App) (n n' : string) (f : UgenFunc) :
  n <> n' -> app_m (Add app n f).2 !! n' = app_m app !! n'.
Proof.
  intros Hne. unfold Add. destruct (app_m app !! n); [done |].
  cbn. by rewrite lookup_insert_ne.
Qed.

(** ** [List] and [Run] *)

Lemma List_lines (names : list string) (w : World) :
  stdout (foldl (fun w name => Println name w) w names) = stdout w ++ names /\
  played (foldl (fun w name => Println name w) w names) = played w.
Proof.
  revert w. induction names as [|name names IH]; intros w; cbn.
  - by rewrite app_nil_r.
  - destruct (IH (Println name w)) as [-> ->]. cbn. by rewrite <- app_assoc.
Qed.

(** C8. With the list flag set, [Run] performs [List] and returns [nil]: the
    names of the registry go to standard output, nothing is played, and the
    sound name and the arguments have no influence.  Otherwise [Run] is
    [Play(app.sound, args)]. *)
Theorem Run_list_or_play (app : App) (args : list string) (w : World) :
  Run app args w
    = (if app_list app then (None, List app w) else Play app (app_sound app) args w) /\
  stdout (List app w) = stdout w ++ range_order (app_m app) /\
  played (List app w) = played w /\
  forall sound' args', Run (mkApp true sound' (app_m app)) args' w = (None, List app w).
Proof.
  destruct (List_lines (range_order (app_m app)) w) as [Hout Hplayed].
  by repeat split.
Qed.

(** ** [Play]: resolving the name *)

Lemma Play_registered (app : App) (sound : string) (def : Synthdef)
    (params : list string) (w : World) :
  app_m app !! sound = Some def ->
  Play app sound params w =
    match range_params params ∅ with
    | inl r => (r, w)
    | inr ctls =>
        (errors.Wrap (scid_reply (played w) def ctls) "playing synthdef",
         mkWorld (stdout w) (played w ++ [(def, ctls)]))
    end.
Proof. intros H. unfold Play. rewrite H. by destruct (range_params params ∅). Qed.

(** ** [Play]: the loop over the parameters *)

Lemma Split_key_value (key value : string) :
  contains_byte "=" key = false -> contains_byte "=" value = false ->
  strings.Split (key +:+ "=" +:+ value) "=" = [key; value].
Proof.
  intros Hk Hv. change (key +:+ "=" +:+ value) with (key +:+ String "=" value).
  rewrite Split_byte_cons by done. by rewrite Split_byte_none.
Qed.

Lemma Split_key_value_more (key value rest : string) :
  contains_byte "=" key = false -> contains_byte "=" value = false ->
  strings.Split (key +:+ "=" +:+ value +:+ "=" +:+ rest) "="
  = key :: value :: strings.Split rest "=".
Proof.
  intros Hk Hv.
  change (key +:+ "=" +:+ value +:+ "=" +:+ rest)
    with (key +:+ String "=" (value +:+ String "=" rest)).
  by rewrite !Split_byte_cons.
Qed.

Lemma parse_param_segments (param a0 a1 : string) (rest : list string) :
  strings.Split param "=" = a0 :: a1 :: rest ->
  parse_param param =
    match strconv.ParseFloat a1 32 with
    | (_, Some err) => inl (Some (withMessage err "parsing control value"))
    | (fv, None) => inr (a0, float32 fv)
    end.
Proof.
  intros H. unfold parse_param. rewrite H.
  by destruct (strconv.ParseFloat a1 32) as [fv [e|]].
Qed.

Lemma parse_param_malformed (param : string) :
  malformed param -> parse_param param = inl (Some (malformed_param param)).
Proof. intros H. unfold parse_param. by rewrite Split_byte_none. Qed.

Lemma parse_param_unparsable (param : string) :
  unparsable param ->
  exists e, parse_param param = inl (Some (withMessage e "parsing control value")).
Proof.
  intros (a0 & a1 & rest & fv & e & Hsplit & Hpf).
  exists e. by rewrite (parse_param_segments _ _ _ _ Hsplit), Hpf.
Qed.

(** For a literal without '=' and without '%' the malformed-parameter error
    reads "could not parse key=value from " followed by the literal. *)
Lemma parse_param_malformed_plain (param : string) :
  malformed param -> contains_byte "%" param = false ->
  parse_param param = inl (Some (fundamental ("could not parse key=value from " +:+ param))) /\
  includes (Error (malformed_param param)) param = true.
Proof.
  intros Hm Hp.
  assert (Hmsg : fmt.Sprintf ("could not parse key=value from " +:+ param)
                 = "could not parse key=value from " +:+ param).
  { apply Sprintf_plain. by rewrite contains_byte_app. }
  rewrite parse_param_malformed by done.
  unfold malformed_param, errors.Errorf. cbn [Error]. rewrite Hmsg.
  split; [done | apply includes_app].
Qed.

(** A round returns from [Play] only with an error, and only for a
    parameter that is malformed or whose value is not a number. *)
Lemma parse_param_inl (param : string) (r : option error) :
  parse_param param = inl r ->
  (malformed param /\ r = Some (malformed_param param)) \/
  (unparsable param /\ exists e, r = Some (withMessage e "parsing control value")).
Proof.
  destruct (contains_byte "=" param) eqn:Heq.
  - apply contains_byte_split in Heq as (k & rest & -> & Hk).
    assert (exists a1 more, strings.Split (k +:+ String "=" rest) "=" = k :: a1 :: more)
      as (a1 & more & Hsplit).
    { rewrite Split_byte_cons by done.
      destruct (contains_byte "=" rest) eqn:Hr.
      - apply contains_byte_split in Hr as (v & rest' & -> & Hv).
        rewrite Split_byte_cons by done. by eexists _, _.
      - rewrite Split_byte_none by done. by eexists _, _. }
    rewrite (parse_param_segments _ _ _ _ Hsplit).
    destruct (strconv.ParseFloat a1 32) as [fv [e|]] eqn:Hpf; [| done].
    intros [= <-]. right. split; [| by eexists].
    by exists k, a1, more, fv, e.
  - rewrite parse_param_malformed by done. intros [= <-]. by left.
Qed.


Lemma range_params_app (l1 l2 : list string) (ctls : gmap string spec_float) :
  range_params (l1 ++ l2) ctls =
    match range_params l1 ctls with
    | inl r => inl r
    | inr ctls' => range_params l2 ctls'
    end.
Proof.
  revert ctls. induction l1 as [|p l1 IH]; intros ctls; cbn; [done |].
  destruct (parse_param p) as [r|[k v]]; [done | apply IH].
Qed.

(** The loop stops at the first parameter that fails, with its error. *)
Lemma range_params_first_failure (params : list string) (ctls : gmap string spec_float) :
  Exists (fun p => malformed p \/ unparsable p) params ->
  exists l1 p l2 e,
    params = l1 ++ p :: l2 /\
    Forall (fun q => exists kv, parse_param q = inr kv) l1 /\
    parse_param p = inl (Some e) /\
    range_params params ctls = inl (Some e).
Proof.
  revert ctls. induction params as [|q params IH]; intros ctls Hex.
  - by apply Exists_nil in Hex.
  - destruct (parse_param q) as [r|[k v]] eqn:Hq.
    + destruct (parse_param_inl _ _ Hq) as [[_ ->]|[_ [e ->]]];
        eexists [], q, params, _; cbn; rewrite Hq; by repeat split.
    + apply Exists_cons in Hex as [[Hm|Hu]|Hex].
      * rewrite parse_param_malformed in Hq by done. done.
      * apply parse_param_unparsable in Hu as [e He]. congruence.
      * destruct (IH (<[k := v]> ctls) Hex) as (l1 & p & l2 & e & -> & Hl1 & Hp & Hr).
        exists (q :: l1), p, l2, e. cbn. rewrite Hq. repeat split; [| done | done].
        apply Forall_cons; split; [by eexists | done].
Qed.

(** A loop that returns early does so in the round of one of the parameters. *)
Lemma range_params_first_failure_inv (params : list string) (ctls : gmap string spec_float)
    (r : option error) :
  range_params params ctls = inl r -> exists p, parse_param p = inl r.
Proof.
  revert ctls. induction params as [|q params IH]; intros ctls; cbn; [done |].
  destruct (parse_param q) as [r'|[k v]] eqn:Hq; [intros [= <-]; by eexists | apply IH].
Qed.

(** C4. For a registered sound and parameters of which some fails to parse,
    [Play] returns the error of the first such parameter and leaves the world
    as it was: the backend receives no request, no control map is handed
    over. *)
Theorem Play_parse_failure (app : App) (sound : string) (def : Synthdef)
    (params : list string) (w : World) :
  app_m app !! sound = Some def ->
  Exists (fun p => malformed p \/ unparsable p) params ->
  exists l1 p l2 e,
    params = l1 ++ p :: l2 /\
    Forall (fun q => exists kv, parse_param q = inr kv) l1 /\
    parse_param p = inl (Some e) /\
    (e = malformed_param p \/ exists ne, e = withMessage ne "parsing control value") /\
    Play app sound params w = (Some e, w) /\
    played (Play app sound params w).2 = played w.
Proof.
  intros Hdef Hex.
  destruct (range_params_first_failure params ∅ Hex) as (l1 & p & l2 & e & -> & Hl1 & Hp & Hr).
  exists l1, p, l2, e. rewrite (Play_registered _ _ _ _ _ Hdef), Hr.
  repeat split; try done.
  destruct (parse_param_inl _ _ Hp) as [[_ [= ->]]|[_ [ne [= ->]]]]; [by left | right; by eexists].
Qed.

(** C1, as the code has it. A raw parameter with more than one '=' is cut
    at every '=' and only the first two pieces are used: the key is what
    precedes the first '=', the value string is what lies between the first
    and the second '=', and what follows the second '=' has no influence.
    So "a=b=c" has key "a" and value string "b", which is not a number. *)
Theorem parse_param_two_equals (key value rest : string) :
  contains_byte "=" key = false -> contains_byte "=" value = false ->
  strings.Split (key +:+ "=" +:+ value +:+ "=" +:+ rest) "="
    = key :: value :: strings.Split rest "=" /\
  parse_param (key +:+ "=" +:+ value +:+ "=" +:+ rest) = parse_param (key +:+ "=" +:+ value) /\
  parse_param "a=b=c"
    = inl (Some (withMessage (NumError "ParseFloat" "b" strconv.ErrSyntax) "parsing control value")).
Proof.
  intros Hk Hv. split; [by apply Split_key_value_more |]. split; [| done].
  rewrite (parse_param_segments _ _ _ _ (Split_key_value_more key value rest Hk Hv)).
  by rewrite (parse_param_segments _ _ _ _ (Split_key_value key value Hk Hv)).
Qed.

(** C6. For a parameter key=value with a single '=': when [ParseFloat]
    rejects the value, the round returns that [NumError] wrapped with
    "parsing control value"; when it accepts it, the key is bound to the value
    converted to [float32].  ["a=1.5"; "b=-2"] gives {a: 1.5, b: -2}. *)
Theorem parse_param_value (key value : string) :
  contains_byte "=" key = false -> contains_byte "=" value = false ->
  (forall fv e,
     strconv.ParseFloat value 32 = (fv, Some e) ->
     parse_param (key +:+ "=" +:+ value) = inl (Some (withMessage e "parsing control value")) /\
     (e = NumError "ParseFloat" value strconv.ErrSyntax \/
      e = NumError "ParseFloat" value strconv.ErrRange)) /\
  (forall fv,
     strconv.ParseFloat value 32 = (fv, None) ->
     parse_param (key +:+ "=" +:+ value) = inr (key, float32 fv) /\
     range_params [key +:+ "=" +:+ value] ∅ = inr {[ key := float32 fv ]}) /\
  range_params ["a=1.5"; "b=-2"] ∅ = inr (<[ "b" := f32 (-2) 0 ]> {[ "a" := f32 3 (-1) ]}).
Proof.
  intros Hk Hv.
  pose proof (parse_param_segments _ _ _ _ (Split_key_value key value Hk Hv)) as Hpp.
  split; [| split].
  - intros fv e Hpf. rewrite Hpp, Hpf. split; [done |]. by eapply ParseFloat_error.
  - intros fv Hpf. cbn [range_params]. by rewrite Hpp, Hpf.
  - by vm_compute.
Qed.

Lemma range_params_other_keys (l : list string) (k : string)
    (ctls0 ctls : gmap string spec_float) :
  Forall (fun q => forall k' v', parse_param q = inr (k', v') -> k' <> k) l ->
  range_params l ctls0 = inr ctls ->
  ctls !! k = ctls0 !! k.
Proof.
  revert ctls0. induction l as [|q l IH]; intros ctls0 Hl; cbn.
  - by intros [= ->].
  - apply Forall_cons in Hl as [Hq Hl].
    destruct (parse_param q) as [r|[k' v']] eqn:Hpq; [done |].
    intros Hr. rewrite (IH _ Hl Hr). apply lookup_insert_ne. by eapply Hq.
Qed.

(** C7. When the loop runs to its end, a key is bound to the value of the
    last parameter that carries it.  ["a=1"; "a=2"] gives {a: 2}. *)
Theorem range_params_last_wins (l1 : list string) (p : string) (l2 : list string)
    (k : string) (v : spec_float) (ctls : gmap string spec_float) :
  range_params (l1 ++ p :: l2) ∅ = inr ctls ->
  parse_param p = inr (k, v) ->
  Forall (fun q => forall k' v', parse_param q = inr (k', v') -> k' <> k) l2 ->
  ctls !! k = Some v /\
  range_params ["a=1"; "a=2"] ∅ = inr {[ "a" := f32 2 0 ]}.
Proof.
  intros Hr Hp Hl2. split; [| by vm_compute].
  rewrite range_params_app in Hr.
  destruct (range_params l1 ∅) as [r|ctls1]; [done |].
  cbn in Hr. rewrite Hp in Hr.
  rewrite (range_params_other_keys _ _ _ _ Hl2 Hr). apply lookup_insert_eq.
Qed.

(** C9. "key=" is cut into the key and the empty string, so the shape check
    passes and the round fails in [ParseFloat]: the error is the wrapped
    [NumError] for the empty string, not the malformed-parameter error. *)
Theorem parse_param_empty_value (key : string) :
  contains_byte "=" key = false ->
  strings.Split (key +:+ "=") "=" = [key; ""] /\
  parse_param (key +:+ "=")
    = inl (Some (withMessage (NumError "ParseFloat" "" strconv.ErrSyntax) "parsing control value")) /\
  parse_param (key +:+ "=") <> inl (Some (malformed_param (key +:+ "="))) /\
  forall app sound def w,
    app_m app !! sound = Some def ->
    Play app sound [key +:+ "="] w
    = (Some (withMessage (NumError "ParseFloat" "" strconv.ErrSyntax) "parsing control value"), w).
Proof.
  intros Hk.
  pose proof (Split_key_value key "" Hk eq_refl) as Hsplit.
  change (key +:+ "=" +:+ "") with (key +:+ "=") in Hsplit.
  pose proof (parse_param_segments _ _ _ _ Hsplit) as Hpp.
  change (strconv.ParseFloat "" 32)
    with (S754_zero false, Some (NumError "ParseFloat" "" strconv.ErrSyntax)) in Hpp.
  repeat split; [done | done | by rewrite Hpp |].
  intros app sound def w Hdef. rewrite (Play_registered _ _ _ _ _ Hdef).
  cbn [range_params]. by rewrite Hpp.
Qed.

(** C10. [Add("", f)] on the empty registry succeeds and stores the
    definition under the empty name; [Play("", params)] then finds it and goes
    on to the parameters and the backend, and what it returns is never the
    unrecognized-sound error. *)
Theorem Add_Play_empty_name (f : UgenFunc) (params : list string) (w : World) :
  let app := (Add New "" f).2 in
  (Add New "" f).1 = None /\
  app_m app = {[ "" := NewSynthdef "" f ]} /\
  Play app "" params w =
    match range_params params ∅ with
    | inl r => (r, w)
    | inr ctls =>
        (errors.Wrap (scid_reply (played w) (NewSynthdef "" f) ctls) "playing synthdef",
         mkWorld (stdout w) (played w ++ [(NewSynthdef "" f, ctls)]))
    end /\
  (Play app "" params w).1 <> Some (unrecognized_sound "").
Proof.
  cbn zeta. unfold New. rewrite Add_fresh by done. cbn [fst snd app_m].
  split; [done |]. split; [by rewrite insert_empty |].
  erewrite Play_registered by (cbn; apply lookup_insert_eq).
  split; [done |].
  destruct (range_params params ∅) as [r|ctls] eqn:Hr.
  - cbn. intros ->.
    apply (range_params_first_failure_inv params) in Hr as (p & Hp).
    destruct (parse_param_inl _ _ Hp) as [[_ [= He]]|[_ [e [= He]]]].
    destruct (Sprintf_head "c" ("ould not parse key=value from " +:+ p) eq_refl) as [t Ht].
    change ("could not parse key=value from " +:+ p)
      with (String "c" ("ould not parse key=value from " +:+ p)) in He.
    rewrite Ht in He. by vm_compute in He.
  - cbn. by destruct (scid_reply (played w) (NewSynthdef "" f) ctls).
Qed.

(** * Further properties of the code *)

(** ** The registry *)

(** X1. [Add] of a name that is not registered returns [nil]; afterwards the
    name leads to [NewSynthdef(name, f)], every other name leads to what it
    led to before, the registry has one entry more and the options are as
    they were. *)
Theorem Add_fresh_lookup (app : App) (n : string) (f : UgenFunc) :
  app_m app !! n = None ->
  (Add app n f).1 = None /\
  app_m (Add app n f).2 !! n = Some (NewSynthdef n f) /\
  (forall n', n' <> n -> app_m (Add app n f).2 !! n' = app_m app !! n') /\
  size (app_m (Add app n f).2) = S (size (app_m app)) /\
  app_list (Add app n f).2 = app_list app /\
  app_sound (Add app n f).2 = app_sound app.
Proof.
  intros Hn. rewrite Add_fresh by done. cbn.
  split; [done |]. split; [apply lookup_insert_eq |].
  split; [intros n' Hne; by apply lookup_insert_ne |].
  split; [by apply map_size_insert_None | done].
Qed.

Lemma Adds_cons (app : App) (n : string) (f : UgenFunc) (more : list (string * UgenFunc)) :
  Adds app ((n, f) :: more) = Adds (Add app n f).2 more.
Proof. reflexivity. Qed.

Lemma Adds_app (app : App) (l1 l2 : list (string * UgenFunc)) :
  Adds app (l1 ++ l2) = Adds (Adds app l1) l2.
Proof. unfold Adds. apply foldl_app. Qed.

Lemma Adds_other (app : App) (more : list (string * UgenFunc)) (n : string) :
  n ∉ more.*1 -> app_m (Adds app more) !! n = app_m app !! n.
Proof.
  revert app. induction more as [|[n' f'] more IH]; intros app Hn; [done |].
  cbn in Hn. apply not_elem_of_cons in Hn as [Hne Hn].
  rewrite Adds_cons, (IH _ Hn). by apply Add_other.
Qed.

(** X2. In a run of registrations the first one of a name is the one that
    counts: later ones with the same name are refused and change nothing. *)
Theorem Adds_first_wins (app : App) (l1 l2 : list (string * UgenFunc))
    (n : string) (f : UgenFunc) :
  app_m app !! n = None -> n ∉ l1.*1 ->
  app_m (Adds app (l1 ++ (n, f) :: l2)) !! n = Some (NewSynthdef n f).
Proof.
  intros Hn Hl1. rewrite Adds_app, Adds_cons. apply Adds_keeps.
  rewrite Add_fresh by (by rewrite Adds_other). cbn. apply lookup_insert_eq.
Qed.

Lemma Adds_names (app : App) (more : list (string * UgenFunc)) :
  dom (app_m (Adds app more)) = dom (app_m app) ∪ list_to_set more.*1.
Proof.
  revert app. induction more as [|[n f] more IH]; intros app.
  - cbn. by rewrite (right_id_L ∅ (∪)).
  - rewrite Adds_cons, IH. cbn. unfold Add.
    destruct (app_m app !! n) as [def|] eqn:Hn; cbn.
    + apply (elem_of_dom_2 (D := gset string)) in Hn.
      rewrite (assoc_L (∪)). f_equal. symmetry.
      rewrite (comm_L (∪)). apply subseteq_union_1_L. by apply singleton_subseteq_l.
    + rewrite dom_insert_L, (comm_L (∪) {[n]}). by rewrite (assoc_L (∪)).
Qed.

Lemma Adds_options (app : App) (more : list (string * UgenFunc)) :
  app_list (Adds app more) = app_list app /\ app_sound (Adds app more) = app_sound app.
Proof.
  revert app. induction more as [|[n f] more IH]; intros app; [done |].
  rewrite Adds_cons. destruct (IH (Add app n f).2) as [-> ->].
  unfold Add. by destruct (app_m app !! n).
Qed.

(** X3. After a run of registrations the registered names are those
    registered before together with those of the run: nothing is ever
    removed, and the options stay as they were. *)
Theorem Adds_dom (app : App) (more : list (string * UgenFunc)) :
  dom (app_m (Adds app more)) = dom (app_m app) ∪ list_to_set more.*1 /\
  (forall n def, app_m app !! n = Some def -> app_m (Adds app more) !! n = Some def) /\
  app_list (Adds app more) = app_list app /\
  app_sound (Adds app more) = app_sound app.
Proof.
  split; [apply Adds_names |]. split; [intros n def; apply Adds_keeps | apply Adds_options].
Qed.

(** ** [List] *)

(** X4. When a [range] visits every key of the map once, [List] appends to
    standard output exactly the registered names, each once, and sends
    nothing to the backend. *)
Theorem List_names (app : App) (w : World) :
  (forall m, range_order m ≡ₚ (map_to_list m).*1) ->
  exists names,
    stdout (List app w) = stdout w ++ names /\
    NoDup names /\
    (forall n, n ∈ names <-> is_Some (app_m app !! n)) /\
    played (List app w) = played w.
Proof.
  intros Hrange. exists (range_order (app_m app)).
  destruct (List_lines (range_order (app_m app)) w) as [Hout Hplayed].
  split; [done |]. split; [| split; [| done]].
  - rewrite Hrange. apply NoDup_fst_map_to_list.
  - intros n. rewrite Hrange, list_elem_of_fmap. split.
    + intros ([n' def] & -> & Hin). apply elem_of_map_to_list in Hin. by eexists.
    + intros [def Hdef]. exists (n, def). split; [done |]. by apply elem_of_map_to_list.
Qed.

(** X5. After registrations on a new app, [List] prints the names that were
    registered, each once, however often it was tried to register them. *)
Theorem List_after_Adds (more : list (string * UgenFunc)) (w : World) :
  (forall m, range_order m ≡ₚ (map_to_list m).*1) ->
  exists names,
    stdout (List (Adds New more) w) = stdout w ++ names /\
    NoDup names /\
    (forall n, n ∈ names <-> n ∈ more.*1).
Proof.
  intros Hrange.
  destruct (List_lines (range_order (app_m (Adds New more))) w) as [Hout _].
  exists (range_order (app_m (Adds New more))). split; [done |]. split.
  - rewrite Hrange. apply NoDup_fst_map_to_list.
  - intros n. rewrite Hrange.
    assert (n ∈ (map_to_list (app_m (Adds New more))).*1 <-> n ∈ dom (app_m (Adds New more)))
      as ->.
    { rewrite elem_of_dom, list_elem_of_fmap. split.
      - intros ([n' def] & -> & Hin). apply elem_of_map_to_list in Hin. by eexists.
      - intros [def Hdef]. exists (n, def). split; [done |]. by apply elem_of_map_to_list. }
    rewrite (Adds_names New more). cbn.
    by rewrite dom_empty_L, (left_id_L ∅ (∪)), elem_of_list_to_set.
Qed.

(** ** [Play]: outcome and effects *)

Lemma parse_param_inr_iff (p : string) :
  (exists kv, parse_param p = inr kv) <-> ~ (malformed p \/ unparsable p).
Proof.
  split.
  - intros [kv Hkv] [Hm|Hu].
    + rewrite parse_param_malformed in Hkv by done. done.
    + apply parse_param_unparsable in Hu as [e He]. congruence.
  - intros Hgood. destruct (parse_param p) as [r|kv] eqn:Hp; [| by eexists].
    destruct (parse_param_inl _ _ Hp) as [[Hm _]|[Hu _]]; exfalso; auto.
Qed.

Lemma range_params_inr_iff (params : list string) (ctls0 : gmap string spec_float) :
  (exists ctls, range_params params ctls0 = inr ctls) <->
  Forall (fun p => ~ (malformed p \/ unparsable p)) params.
Proof.
  revert ctls0. induction params as [|p params IH]; intros ctls0; cbn.
  - split; [constructor | by eexists].
  - rewrite Forall_cons, <- parse_param_inr_iff.
    destruct (parse_param p) as [r|[k v]] eqn:Hp.
    + split; [by intros [? ?] | by intros [[? ?] _]].
    + rewrite IH. split; [intros H; split; [by eexists | done] | by intros [_ H]].
Qed.

Lemma range_params_inl_elem (params : list string) (ctls0 : gmap string spec_float)
    (r : option error) :
  range_params params ctls0 = inl r -> exists p, p ∈ params /\ parse_param p = inl r.
Proof.
  revert ctls0. induction params as [|q params IH]; intros ctls0; cbn; [done |].
  destruct (parse_param q) as [r'|[k v]] eqn:Hq.
  - intros [= <-]. exists q. split; [apply list_elem_of_here | done].
  - intros (p & Hin & Hp)%IH. exists p. split; [by apply list_elem_of_further | done].
Qed.

(** X6. [Play] returns [nil] exactly when the sound is registered, every
    parameter has the key=value shape with a number for its value, and the
    backend accepts the request. *)
Theorem Play_nil_iff (app : App) (sound : string) (params : list string) (w : World) :
  (Play app sound params w).1 = None <->
  exists def ctls,
    app_m app !! sound = Some def /\
    Forall (fun p => ~ (malformed p \/ unparsable p)) params /\
    range_params params ∅ = inr ctls /\
    scid_reply (played w) def ctls = None.
Proof.
  unfold Play. destruct (app_m app !! sound) as [def|] eqn:Hdef.
  - destruct (range_params params ∅) as [r|ctls] eqn:Hr.
    + split.
      * cbn. intros ->. apply range_params_inl_elem in Hr as (p & _ & Hp).
        by destruct (parse_param_inl _ _ Hp) as [[_ ?]|[_ [? ?]]].
      * by intros (? & ? & _ & _ & ? & _).
    + cbn. split.
      * intros Hw. exists def, ctls. split; [done |].
        split; [apply (range_params_inr_iff params ∅); by eexists |]. split; [done |].
        by destruct (scid_reply (played w) def ctls).
      * intros (def' & ctls' & [= <-] & _ & [= <-] & ->). done.
  - cbn. split; [done | by intros (? & ? & ? & _)].
Qed.

Lemma Play_errors (app : App) (sound : string) (params : list string) (w : World)
    (e : error) :
  (Play app sound params w).1 = Some e ->
  (app_m app !! sound = None /\ e = unrecognized_sound sound) \/
  (exists p, is_Some (app_m app !! sound) /\ p ∈ params /\ malformed p /\
             e = malformed_param p) \/
  (exists p a0 a1 rest Err,
     is_Some (app_m app !! sound) /\ p ∈ params /\
     strings.Split p "=" = a0 :: a1 :: rest /\
     (Err = strconv.ErrSyntax \/ Err = strconv.ErrRange) /\
     e = withMessage (NumError "ParseFloat" a1 Err) "parsing control value") \/
  (exists def ctls cause,
     app_m app !! sound = Some def /\ range_params params ∅ = inr ctls /\
     scid_reply (played w) def ctls = Some cause /\
     e = withMessage cause "playing synthdef").
Proof.
  unfold Play. destruct (app_m app !! sound) as [def|] eqn:Hdef.
  - destruct (range_params params ∅) as [r|ctls] eqn:Hr; cbn.
    + intros ->. apply range_params_inl_elem in Hr as (p & Hin & Hp).
      destruct (parse_param_inl _ _ Hp) as [[Hm [= ->]]|[Hu _]].
      * right; left. by exists p.
      * right; right; left.
        destruct Hu as (a0 & a1 & rest & fv & cause & Hsplit & Hpf).
        rewrite (parse_param_segments _ _ _ _ Hsplit), Hpf in Hp.
        injection Hp as <-.
        destruct (ParseFloat_error _ _ _ _ Hpf) as [->| ->].
        -- exists p, a0, a1, rest, strconv.ErrSyntax.
           split; [by eexists |]. repeat split; auto.
        -- exists p, a0, a1, rest, strconv.ErrRange.
           split; [by eexists |]. repeat split; auto.
    + destruct (scid_reply (played w) def ctls) as [cause|] eqn:Hreply; cbn; [| done].
      intros [= <-]. right; right; right. by exists def, ctls, cause.
  - cbn. intros [= <-]. by left.
Qed.

(** X7. The errors of [Play] are of four kinds and no other: the
    unrecognized-sound error, when the name is not registered; the
    malformed-parameter error of a parameter without '='; the [NumError] of
    [ParseFloat] for the second piece of a parameter, wrapped with "parsing
    control value"; and the backend's own error, wrapped with "playing
    synthdef". *)
Theorem Play_error_cases (app : App) (sound : string) (params : list string) (w : World)
    (e : error) :
  (Play app sound params w).1 = Some e ->
  (app_m app !! sound = None /\ e = unrecognized_sound sound) \/
  (exists p, is_Some (app_m app !! sound) /\ p ∈ params /\ malformed p /\
             e = malformed_param p) \/
  (exists p a0 a1 rest Err,
     is_Some (app_m app !! sound) /\ p ∈ params /\
     strings.Split p "=" = a0 :: a1 :: rest /\
     (Err = strconv.ErrSyntax \/ Err = strconv.ErrRange) /\
     e = withMessage (NumError "ParseFloat" a1 Err) "parsing control value") \/
  (exists def ctls cause,
     app_m app !! sound = Some def /\ range_params params ∅ = inr ctls /\
     scid_reply (played w) def ctls = Some cause /\
     e = withMessage cause "playing synthdef").
Proof. apply Play_errors. Qed.

(** X8. [Play] never writes to standard output, and it sends one request,
    the registered definition with the control map of all the parameters,
    when the name is registered and every parameter parses, whatever the
    backend answers; in every other case it sends none. *)
Theorem Play_effects (app : App) (sound : string) (params : list string) (w : World) :
  stdout (Play app sound params w).2 = stdout w /\
  ((exists def ctls,
      app_m app !! sound = Some def /\ range_params params ∅ = inr ctls /\
      played (Play app sound params w).2 = played w ++ [(def, ctls)]) \/
   ((app_m app !! sound = None \/ Exists (fun p => malformed p \/ unparsable p) params) /\
    (Play app sound params w).2 = w)).
Proof.
  unfold Play. destruct (app_m app !! sound) as [def|] eqn:Hdef; [| by split; [| right; split; [left |]]].
  destruct (range_params params ∅) as [r|ctls] eqn:Hr; cbn.
  - split; [done |]. right. split; [| done]. right.
    apply range_params_inl_elem in Hr as (p & Hin & Hp).
    apply Exists_exists. exists p. split; [done |].
    destruct (parse_param_inl _ _ Hp) as [[? _]|[? _]]; auto.
  - split; [done |]. left. by exists def, ctls.
Qed.

(** ** The control map *)

Lemma parse_param_key (p k : string) (v : spec_float) :
  parse_param p = inr (k, v) -> param_key p = k.
Proof.
  unfold parse_param, param_key.
  destruct (strings.Split p "=") as [|a0 [|a1 rest]]; [done | done |].
  destruct (strconv.ParseFloat a1 32) as [fv [e|]]; [done |]. by intros [= -> _].
Qed.

Lemma range_params_dom (params : list string) (ctls0 ctls : gmap string spec_float) :
  range_params params ctls0 = inr ctls ->
  dom ctls = dom ctls0 ∪ list_to_set (param_key <$> params).
Proof.
  revert ctls0. induction params as [|p params IH]; intros ctls0; cbn.
  - intros [= ->]. by rewrite (right_id_L ∅ (∪)).
  - destruct (parse_param p) as [r|[k v]] eqn:Hp; [done |].
    intros Hr. rewrite (IH _ Hr), dom_insert_L, (parse_param_key _ _ _ Hp).
    rewrite (comm_L (∪) {[k]}). by rewrite (assoc_L (∪)).
Qed.

Lemma range_params_origin (params : list string) (ctls0 ctls : gmap string spec_float)
    (k : string) (v : spec_float) :
  range_params params ctls0 = inr ctls -> ctls !! k = Some v ->
  ctls0 !! k = Some v \/ exists p, p ∈ params /\ parse_param p = inr (k, v).
Proof.
  revert ctls0. induction params as [|p params IH]; intros ctls0; cbn.
  - intros [= ->]. by left.
  - destruct (parse_param p) as [r|[k' v']] eqn:Hp; [done |].
    intros Hr Hk. destruct (IH _ Hr Hk) as [H0|(q & Hin & Hq)].
    + destruct (decide (k' = k)) as [->|Hne].
      * rewrite lookup_insert_eq in H0. injection H0 as ->.
        right. exists p. split; [apply list_elem_of_here | done].
      * rewrite lookup_insert_ne in H0 by done. by left.
    + right. exists q. split; [by apply list_elem_of_further | done].
Qed.

Lemma range_params_size (params : list string) (ctls0 ctls : gmap string spec_float) :
  range_params params ctls0 = inr ctls -> (size ctls <= size ctls0 + length params)%nat.
Proof.
  revert ctls0. induction params as [|p params IH]; intros ctls0; cbn.
  - intros [= ->]. lia.
  - destruct (parse_param p) as [r|[k v]] eqn:Hp; [done |].
    intros Hr. specialize (IH _ Hr).
    pose proof (map_size_insert k v ctls0) as Hsize.
    destruct (ctls0 !! k); cbn in Hsize; lia.
Qed.

(** X9. When the loop runs to its end, the keys of the control map are the
    keys [a[0]] of the parameters, every entry of the map is the key and the
    value of one of the parameters, and the map has at most as many entries
    as there are parameters. *)
Theorem range_params_entries (params : list string) (ctls : gmap string spec_float) :
  range_params params ∅ = inr ctls ->
  dom ctls = list_to_set (param_key <$> params) /\
  (forall k v, ctls !! k = Some v -> exists p, p ∈ params /\ parse_param p = inr (k, v)) /\
  (size ctls <= length params)%nat.
Proof.
  intros Hr. split; [| split].
  - by rewrite (range_params_dom _ _ _ Hr), dom_empty_L, (left_id_L ∅ (∪)).
  - intros k v Hk. by destruct (range_params_origin _ _ _ _ _ Hr Hk) as [?|?].
  - pose proof (range_params_size _ _ _ Hr) as Hsize. by rewrite map_size_empty in Hsize.
Qed.

Lemma range_params_lookup_nodup (params : list string) (ctls : gmap string spec_float)
    (k : string) (v : spec_float) :
  range_params params ∅ = inr ctls -> NoDup (param_key <$> params) ->
  ctls !! k = Some v <-> exists p, p ∈ params /\ parse_param p = inr (k, v).
Proof.
  intros Hr Hnd. split.
  - intros Hk. by destruct (range_params_origin _ _ _ _ _ Hr Hk) as [?|?].
  - intros (p & Hin & Hp).
    apply list_elem_of_split in Hin as (l1 & l2 & ->).
    rewrite fmap_app, fmap_cons in Hnd.
    apply NoDup_app in Hnd as (_ & _ & Hnd). apply NoDup_cons in Hnd as [Hnotin _].
    rewrite (parse_param_key _ _ _ Hp) in Hnotin.
    assert (Hl2 : Forall (fun q => forall k' v', parse_param q = inr (k', v') -> k' <> k) l2).
    { apply Forall_forall. intros q Hq k' v' Hpq ->. apply Hnotin.
      apply list_elem_of_fmap. exists q. by rewrite (parse_param_key _ _ _ Hpq). }
    rewrite range_params_app in Hr.
    destruct (range_params l1 ∅) as [r|ctls1]; [done |].
    cbn in Hr. rewrite Hp in Hr.
    rewrite (range_params_other_keys _ _ _ _ Hl2 Hr). apply lookup_insert_eq.
Qed.

(** X10. When no two parameters have the same key, their order is of no
    account: a rearranged list gives the same control map, and [Play] does
    the same with it. *)
Theorem range_params_permutation (params params' : list string)
    (ctls : gmap string spec_float) :
  params ≡ₚ params' ->
  NoDup (param_key <$> params) ->
  range_params params ∅ = inr ctls ->
  range_params params' ∅ = inr ctls /\
  forall app sound w, Play app sound params' w = Play app sound params w.
Proof.
  intros Hperm Hnd Hr.
  assert (Hr' : range_params params' ∅ = inr ctls).
  { destruct (proj2 (range_params_inr_iff params' ∅)) as [ctls' Hr'].
    { rewrite <- Hperm. apply (range_params_inr_iff params ∅). by eexists. }
    rewrite Hr'. f_equal. apply map_eq. intros k. apply option_eq. intros v.
    rewrite (range_params_lookup_nodup _ _ _ _ Hr' ltac:(by rewrite <- Hperm)).
    rewrite (range_params_lookup_nodup _ _ _ _ Hr Hnd).
    split; intros (p & Hin & Hp); exists p; (split; [| done]).
    - by rewrite Hperm.
    - by rewrite <- Hperm. }
  split; [done |]. intros app sound w. unfold Play. by rewrite Hr, Hr'.
Qed.

(** ** [Run] on an app as [New] makes it *)

(** X11. With neither option set, [Run] plays the sound with the empty
    name: unless a sound was registered under the empty name, it fails with
    the message "unrecognized sound: " and does nothing else. *)
Theorem Run_no_options (more : list (string * UgenFunc)) (args : list string) (w : World) :
  EmptyString ∉ more.*1 ->
  Run (Adds New more) args w = (Some (unrecognized_sound ""), w) /\
  Error (unrecognized_sound "") = "unrecognized sound: ".
Proof.
  intros Hmore. split; [| done].
  destruct (Adds_options New more) as [Hlist Hsound].
  unfold Run, Play. rewrite Hlist, Hsound. cbn.
  by rewrite (Adds_other New more "" Hmore).
Qed.

(** ** The lock discipline *)

Lemma for_each_println (names : list string) (st : State) :
  for_each names println st
  = inr (tt, mkState (st_app st) (st_mu st)
               (foldl (fun w name => Println name w) (st_world st) names)
               (st_log st ++ (EvPrintln <$> names))).
Proof.
  revert st. induction names as [|name names IH]; intros [app mu w log]; cbn.
  - unfold ret. cbn. by rewrite app_nil_r.
  - unfold bind, println. cbn. rewrite IH. cbn. by rewrite <- app_assoc.
Qed.

Lemma Add_mu_free (st : State) (name : string) (f : UgenFunc) :
  st_mu st = unlocked ->
  Add_mu name f st
  = inr ((Add (st_app st) name f).1,
         mkState (Add (st_app st) name f).2 unlocked (st_world st)
           (st_log st ++ [EvLock; EvUnlock])).
Proof.
  destruct st as [app mu w log]. cbn. intros ->.
  unfold Add_mu, Add, bind, mu_Lock, get_app. cbn.
  destruct (app_m app !! name) as [def|] eqn:Hn; cbn; unfold ret;
    by rewrite <- app_assoc.
Qed.

Lemma Add_mu_held (st : State) (name : string) (f : UgenFunc) :
  st_mu st <> unlocked -> Add_mu name f st = inl Blocked.
Proof.
  destruct st as [app [wr n] w log]. cbn. intros Hmu. unfold Add_mu, bind, mu_Lock. cbn.
  destruct wr; [done |]. by destruct n.
Qed.

Lemma Play_mu_shared (st : State) (sound : string) (params : list string) :
  writer (st_mu st) = false ->
  Play_mu sound params st
  = inr ((Play (st_app st) sound params (st_world st)).1,
         mkState (st_app st) (st_mu st) (Play (st_app st) sound params (st_world st)).2
           (st_log st ++ [EvRLock; EvRUnlock] ++
            match app_m (st_app st) !! sound, range_params params ∅ with
            | Some def, inr ctls => [EvRequest def ctls]
            | _, _ => []
            end)).
Proof.
  destruct st as [app [wr n] w log]. cbn. intros ->.
  unfold Play_mu, Play, bind, mu_RLock, get_app. cbn.
  destruct (app_m app !! sound) as [def|] eqn:Hdef; cbn.
  - destruct (range_params params ∅) as [r|ctls]; cbn.
    + unfold ret. by rewrite <- app_assoc.
    + unfold request, bind, ret. cbn. by rewrite <- !app_assoc.
  - unfold ret. by rewrite <- app_assoc.
Qed.

Lemma Play_mu_held (st : State) (sound : string) (params : list string) :
  writer (st_mu st) = true -> Play_mu sound params st = inl Blocked.
Proof. destruct st as [app [wr n] w log]. cbn. by intros ->. Qed.

Lemma List_mu_shared (st : State) :
  writer (st_mu st) = false ->
  List_mu st
  = inr (tt, mkState (st_app st) (st_mu st) (List (st_app st) (st_world st))
               (st_log st ++ [EvRLock] ++ (EvPrintln <$> range_order (app_m (st_app st)))
                  ++ [EvRUnlock])).
Proof.
  destruct st as [app [wr n] w log]. cbn. intros ->.
  unfold List_mu, List, bind, mu_RLock, get_app. cbn.
  rewrite for_each_println. cbn. by rewrite <- !app_assoc.
Qed.

Lemma List_mu_held (st : State) :
  writer (st_mu st) = true -> List_mu st = inl Blocked.
Proof. destruct st as [app [wr n] w log]. cbn. by intros ->. Qed.

Lemma requests_of_app (l1 l2 : list event) :
  requests_of (l1 ++ l2) = requests_of l1 ++ requests_of l2.
Proof. apply omap_app. Qed.

Lemma requests_of_println (names : list string) :
  requests_of (EvPrintln <$> names) = [].
Proof. induction names as [|name names IH]; [done | by cbn]. Qed.



(** X14. With no writer on the mutex, [List] prints every name while it
    holds a read lock and gives the lock back at the end; the output is that
    of the plain [List], and registry, backend and mutex are left as they
    were. *)
Theorem List_mu_refines (st : State) :
  writer (st_mu st) = false ->
  exists st',
    List_mu st = inr (tt, st') /\
    st_app st' = st_app st /\
    st_mu st' = st_mu st /\
    st_world st' = List (st_app st) (st_world st) /\
    played (st_world st') = played (st_world st) /\
    st_log st' = st_log st ++ [EvRLock]
                 ++ (EvPrintln <$> range_order (app_m (st_app st))) ++ [EvRUnlock].
Proof.
  intros Hmu. eexists. split; [by apply List_mu_shared |].
  repeat split. exact (proj2 (List_lines _ _)).
Qed.

(** X15. With no writer on the mutex, [Run] returns what the plain [Run]
    returns, with the same effects: the requests in the log are those that
    reached the backend, and registry and mutex are left as they were. *)
Theorem Run_mu_refines (st : State) (args : list string) :
  writer (st_mu st) = false ->
  exists log,
    Run_mu args st
    = inr ((Run (st_app st) args (st_world st)).1,
           mkState (st_app st) (st_mu st) (Run (st_app st) args (st_world st)).2 log) /\
    requests_of log
    = requests_of (st_log st)
      ++ drop (length (played (st_world st))) (played (Run (st_app st) args (st_world st)).2).
Proof.
  intros Hmu. unfold Run_mu, Run, bind, get_app.
  destruct (app_list (st_app st)).
  - rewrite (List_mu_shared st Hmu). eexists. split; [done |]. cbn [fst snd].
    rewrite (proj2 (List_lines _ _) : played (List _ _) = _), drop_all, app_nil_r.
    rewrite !requests_of_app, requests_of_println. cbn. by rewrite app_nil_r.
  - rewrite (Play_mu_shared st _ _ Hmu). eexists. split; [done |].
    rewrite !requests_of_app. f_equal.
    unfold Play. destruct (app_m (st_app st) !! app_sound (st_app st)) as [def|]; cbn.
    + destruct (range_params args ∅) as [r|ctls]; cbn.
      * by rewrite drop_all.
      * by rewrite drop_app_length.
    + by rewrite drop_all.
Qed.

(** X16. The only thing that stops a method is a lock held elsewhere:
    [Add] waits exactly when the mutex is not free, [Play] and [List] wait
    exactly when a writer holds it, and no method ever releases a lock that
    it does not hold. *)
Theorem methods_blocked_iff (st : State) (name : string) (f : UgenFunc)
    (sound : string) (params : list string) :
  (Add_mu name f st = inl Blocked <-> st_mu st <> unlocked) /\
  (Play_mu sound params st = inl Blocked <-> writer (st_mu st) = true) /\
  (List_mu st = inl Blocked <-> writer (st_mu st) = true) /\
  (forall msg,
     Add_mu name f st <> inl (Fatal msg) /\
     Play_mu sound params st <> inl (Fatal msg) /\
     List_mu st <> inl (Fatal msg)).
Proof.
  split; [| split; [| split]].
  - split; [| apply Add_mu_held]. intros Hb Hmu. by rewrite (Add_mu_free st _ _ Hmu) in Hb.
  - split; [| apply Play_mu_held]. intros Hb. destruct (writer (st_mu st)) eqn:Hw; [done |].
    by rewrite (Play_mu_shared st _ _ Hw) in Hb.
  - split; [| apply List_mu_held]. intros Hb. destruct (writer (st_mu st)) eqn:Hw; [done |].
    by rewrite (List_mu_shared st Hw) in Hb.
  - intros msg. split; [| split].
    + assert (st_mu st = unlocked \/ st_mu st <> unlocked) as [Hmu|Hmu].
      { destruct (st_mu st) as [[] [|n]]; [by right | by right | by left | by right]. }
      * by rewrite (Add_mu_free st _ _ Hmu).
      * by rewrite (Add_mu_held st _ _ Hmu).
    + destruct (writer (st_mu st)) eqn:Hw.
      * by rewrite (Play_mu_held st _ _ Hw).
      * by rewrite (Play_mu_shared st _ _ Hw).
    + destruct (writer (st_mu st)) eqn:Hw.
      * by rewrite (List_mu_held st Hw).
      * by rewrite (List_mu_shared st Hw).
Qed.

(** ** [strings.Split] loses nothing *)

Lemma Split_byte_cases (c : ascii) (s : string) :
  (contains_byte c s = false /\ strings.Split s (String c EmptyString) = [s]) \/
  (exists k r, s = k +:+ String c r /\ contains_byte c k = false /\
               strings.Split s (String c EmptyString)
               = k :: strings.Split r (String c EmptyString)).
Proof.
  destruct (contains_byte c s) eqn:Hs.
  - right. apply contains_byte_split in Hs as (k & r & -> & Hk).
    exists k, r. by rewrite Split_byte_cons.
  - left. by rewrite Split_byte_none.
Qed.

(** X17. Cutting a string at a one-byte separator gives one piece more than
    there are separators in it, no piece contains the separator, and the
    pieces put together again with the separator between them are the string:
    the pieces [a[0]], [a[1]] of a parameter are texts of the parameter, in
    their order. *)
Theorem Split_Join (c : ascii) (s : string) :
  Join (strings.Split s (String c EmptyString)) (String c EmptyString) = s /\
  Forall (fun piece => contains_byte c piece = false) (strings.Split s (String c EmptyString)) /\
  length (strings.Split s (String c EmptyString)) = S (count_byte c s).
Proof.
  remember (String.length s) as n eqn:Hn.
  revert s Hn. induction (lt_wf n) as [n _ IH]. intros s ->.
  destruct (Split_byte_cases c s) as [[Hs ->]|(k & r & -> & Hk & ->)].
  - cbn. split; [done |]. split; [by constructor |]. by rewrite count_byte_none.
  - destruct (IH (String.length r)) with (s := r) as (Hjoin & Hall & Hlen); [| done |].
    { rewrite length_app. cbn. lia. }
    split; [| split].
    + destruct (strings.Split r (String c EmptyString)) as [|piece pieces] eqn:Hr;
        [done |].
      change (Join (k :: piece :: pieces) (String c EmptyString))
        with (k +:+ String c EmptyString +:+ Join (piece :: pieces) (String c EmptyString)).
      by rewrite Hjoin.
    + by constructor.
    + cbn [length]. rewrite Hlen, count_byte_app, (count_byte_none c k) by done.
      cbn. by rewrite (proj2 (byte_eqb_true c c) eq_refl).
Qed.

(** ** The methods together *)

Lemma Run_mu_shared (st : State) (args : list string) :
  writer (st_mu st) = false ->
  exists st', Run_mu args st = inr ((Run (st_app st) args (st_world st)).1, st') /\
              st_app st' = st_app st /\ st_mu st' = st_mu st.
Proof.
  intros Hmu. unfold Run_mu, Run, bind, get_app.
  destruct (app_list (st_app st)).
  - rewrite (List_mu_shared st Hmu). by eexists.
  - rewrite (Play_mu_shared st _ _ Hmu). by eexists.
Qed.

(** X18. Whatever methods are called one after the other on a free mutex,
    none of them waits or fails, the mutex is free again after each, and the
    registry at the end is what the [Add]s among them make of it in their
    order: [List], [Play] and [Run] never change it. *)
Theorem do_calls_free (calls : list call) (st : State) :
  st_mu st = unlocked ->
  exists st',
    do_calls calls st = inr (tt, st') /\
    st_mu st' = unlocked /\
    st_app st' = Adds (st_app st) (adds_of calls).
Proof.
  revert st. induction calls as [|c calls IH]; intros st Hmu.
  - exists st. by repeat split.
  - assert (Hw : writer (st_mu st) = false) by (by rewrite Hmu).
    assert (exists st1, do_call c st = inr (tt, st1) /\ st_mu st1 = unlocked /\
                        st_app st1 = Adds (st_app st) (adds_of [c]))
      as (st1 & Hc & Hmu1 & Happ1).
    { destruct c as [name f| |sound params|args]; cbn [do_call]; unfold bind.
      - rewrite (Add_mu_free st _ _ Hmu). by eexists.
      - rewrite (List_mu_shared st Hw). eexists. by repeat split.
      - rewrite (Play_mu_shared st _ _ Hw). eexists. by repeat split.
      - destruct (Run_mu_shared st args Hw) as (st1 & -> & Happ & Hmu1).
        exists st1. repeat split; [congruence | done]. }
    destruct (IH st1 Hmu1) as (st' & Hcalls & Hmu' & Happ').
    exists st'. cbn [do_calls]. unfold bind. rewrite Hc.
    repeat split; [done | done |].
    rewrite Happ', Happ1, <- Adds_app. f_equal.
    change (c :: calls) with ([c] ++ calls). unfold adds_of. by rewrite omap_app.
Qed.

(** X19. A sound plays with the definition made when its name was first
    registered: after a successful [Add(n, f)] and any further registrations,
    [Play(n, params)] with parameters that parse sends [NewSynthdef(n, f)]
    and their control map to the backend and returns the backend's answer,
    wrapped if it is an error. *)
Theorem Play_after_Add (app : App) (n : string) (f : UgenFunc)
    (more : list (string * UgenFunc)) (params : list string)
    (ctls : gmap string spec_float) (w : World) :
  (Add app n f).1 = None ->
  range_params params ∅ = inr ctls ->
  Play (Adds (Add app n f).2 more) n params w
  = (errors.Wrap (scid_reply (played w) (NewSynthdef n f) ctls) "playing synthdef",
     mkWorld (stdout w) (played w ++ [(NewSynthdef n f, ctls)])).
Proof.
  intros Hadd Hr.
  assert (Hn : app_m (Adds (Add app n f).2 more) !! n = Some (NewSynthdef n f)).
  { apply Adds_keeps. unfold Add in *.
    destruct (app_m app !! n) as [def|]; [done |]. cbn. apply lookup_insert_eq. }
  by rewrite (Play_registered _ _ _ _ _ Hn), Hr.
Qed.

(** X20. The message of an error of [Play] begins with one of four texts,
    which tells the kind of the error: "unrecognized sound: ", "could not
    parse key=value from ", "parsing control value: strconv.ParseFloat:
    parsing ", or "playing synthdef: " followed by the backend's message. *)
Theorem Play_error_messages (app : App) (sound : string) (params : list string) (w : World)
    (e : error) :
  (Play app sound params w).1 = Some e ->
  (exists t, Error e = "unrecognized sound: " +:+ t) \/
  (exists t, Error e = "could not parse key=value from " +:+ t) \/
  (exists t, Error e = "parsing control value: strconv.ParseFloat: parsing " +:+ t) \/
  (exists cause, Error e = "playing synthdef: " +:+ Error cause).
Proof.
  intros He.
  destruct (Play_errors _ _ _ _ _ He)
    as [[_ ->]|[(p & _ & _ & _ & ->)|[(p & a0 & a1 & rest & Err & _ & _ & _ & _ & ->)
       |(def & ctls & cause & _ & _ & _ & ->)]]].
  - left. unfold unrecognized_sound, errors.Errorf. cbn [Error]. by apply Sprintf_prefix.
  - right; left. unfold malformed_param, errors.Errorf. cbn [Error]. by apply Sprintf_prefix.
  - right; right; left. cbn [Error]. by eexists.
  - right; right; right. by exists cause.
Qed.

(** ** The malformed-parameter message *)

(** X21. For a parameter that has no '=' and no '%', [Play] on a registered
    sound returns the error whose message is "could not parse key=value
    from " followed by the parameter as it was given, and does nothing
    else. *)
Theorem Play_malformed_message (app : App) (sound : string) (def : Synthdef)
    (param : string) (w : World) :
  app_m app !! sound = Some def ->
  malformed param -> contains_byte "%" param = false ->
  Play app sound [param] w
    = (Some (fundamental ("could not parse key=value from " +:+ param)), w) /\
  Error (fundamental ("could not parse key=value from " +:+ param))
    = "could not parse key=value from " +:+ param /\
  includes ("could not parse key=value from " +:+ param) param = true.
Proof.
  intros Hdef Hm Hp. destruct (parse_param_malformed_plain param Hm Hp) as [Hpp _].
  rewrite (Play_registered _ _ _ _ _ Hdef). cbn [range_params]. rewrite Hpp.
  split; [done |]. split; [done | apply includes_app].
Qed.

End play.

(** * The theorems at concrete inputs *)

(** [Add_twice] for "kick" on the empty registry, with "snare" registered in
    between. *)
Lemma Add_twice_witness :
  let app := New demo.Synthdef in
  (Add _ _ demo.NewSynthdef app "kick" tt).1 = None /\
  let app1 := Adds _ _ demo.NewSynthdef (Add _ _ demo.NewSynthdef app "kick" tt).2
                [("snare", tt)] in
  Add _ _ demo.NewSynthdef app1 "kick" tt = (Some ErrDupl, app1) /\
  app_m _ app1 !! "kick" = Some "kick".
Proof.
  cbn zeta. split; [reflexivity |].
  destruct (Add_twice _ _ demo.NewSynthdef (New demo.Synthdef) "kick" tt tt
              [("snare", tt)] eq_refl) as (H1 & H2 & _).
  split; [exact H1 | exact H2].
Defined.


(** [Play_parse_failure] for a registered "kick" and a second parameter
    without '='. *)
Lemma Play_parse_failure_witness :
  let app := mkApp demo.Synthdef false "" {[ "kick" := "kick" ]} in
  let w := mkWorld demo.Synthdef [] [] in
  app_m _ app !! "kick" = Some "kick" /\
  Exists (fun p => malformed p \/ unparsable p) ["a=1"; "bad"; "b=2"] /\
  exists l1 p l2 e,
    ["a=1"; "bad"; "b=2"] = l1 ++ p :: l2 /\
    Forall (fun q => exists kv, parse_param q = inr kv) l1 /\
    parse_param p = inl (Some e) /\
    (e = malformed_param p \/ exists ne, e = withMessage ne "parsing control value") /\
    Play _ demo.scid_reply app "kick" ["a=1"; "bad"; "b=2"] w = (Some e, w) /\
    played _ (Play _ demo.scid_reply app "kick" ["a=1"; "bad"; "b=2"] w).2 = played _ w.
Proof.
  cbn zeta.
  assert (Hex : Exists (fun p => malformed p \/ unparsable p) ["a=1"; "bad"; "b=2"]).
  { apply Exists_cons_tl, Exists_cons_hd. left. reflexivity. }
  split; [reflexivity |]. split; [exact Hex |].
  exact (Play_parse_failure _ demo.scid_reply
           (mkApp demo.Synthdef false "" {[ "kick" := "kick" ]}) "kick" "kick"
           ["a=1"; "bad"; "b=2"] (mkWorld demo.Synthdef [] []) eq_refl Hex).
Defined.

(** [parse_param_two_equals] for "a=1=2". *)
Lemma parse_param_two_equals_witness :
  contains_byte "=" "a" = false /\ contains_byte "=" "1" = false /\
  strings.Split "a=1=2" "=" = ["a"; "1"; "2"] /\
  parse_param "a=1=2" = parse_param "a=1".
Proof.
  destruct (parse_param_two_equals "a" "1" "2" eq_refl eq_refl) as (H1 & H2 & _).
  split; [reflexivity |]. split; [reflexivity |]. split; [exact H1 | exact H2].
Defined.

(** [parse_param_value] for "a=1.5". *)
Lemma parse_param_value_witness :
  contains_byte "=" "a" = false /\ contains_byte "=" "1.5" = false /\
  parse_param "a=1.5" = inr ("a", f32 3 (-1)) /\
  range_params ["a=1.5"] ∅ = inr {[ "a" := f32 3 (-1) ]}.
Proof.
  destruct (parse_param_value "a" "1.5" eq_refl eq_refl) as (_ & H & _).
  split; [reflexivity |]. split; [reflexivity |].
  exact (H (f32 3 (-1)) eq_refl).
Defined.

(** [range_params_last_wins] for the second of two bindings of "a". *)
Lemma range_params_last_wins_witness :
  let ctls : gmap string spec_float := <[ "b" := f32 4 0 ]> {[ "a" := f32 2 0 ]} in
  range_params (["a=1"; "b=3"] ++ "a=2" :: ["b=4"]) ∅ = inr ctls /\
  parse_param "a=2" = inr ("a", f32 2 0) /\
  Forall (fun q => forall k' v', parse_param q = inr (k', v') -> k' <> "a") ["b=4"] /\
  ctls !! "a" = Some (f32 2 0).
Proof.
  cbn zeta.
  assert (Hl2 : Forall (fun q => forall k' v', parse_param q = inr (k', v') -> k' <> "a") ["b=4"]).
  { apply Forall_cons; split; [| apply Forall_nil_2].
    intros k' v' H. vm_compute in H. injection H as <- _. discriminate. }
  assert (Hr : range_params (["a=1"; "b=3"] ++ "a=2" :: ["b=4"]) ∅
               = inr (<[ "b" := f32 4 0 ]> {[ "a" := f32 2 0 ]})) by (vm_compute; reflexivity).
  split; [exact Hr |]. split; [reflexivity |]. split; [exact Hl2 |].
  exact (proj1 (range_params_last_wins ["a=1"; "b=3"] "a=2" ["b=4"] "a" (f32 2 0) _
                  Hr eq_refl Hl2)).
Defined.

(** [parse_param_empty_value] for "freq=". *)
Lemma parse_param_empty_value_witness :
  contains_byte "=" "freq" = false /\
  strings.Split "freq=" "=" = ["freq"; ""] /\
  parse_param "freq="
    = inl (Some (withMessage (NumError "ParseFloat" "" strconv.ErrSyntax) "parsing control value")).
Proof.
  destruct (parse_param_empty_value _ demo.scid_reply "freq" eq_refl) as (H1 & H2 & _).
  split; [reflexivity |]. split; [exact H1 | exact H2].
Defined.

(** ** The further properties at concrete inputs *)

Lemma Add_fresh_lookup_witness :
  let app := New demo.Synthdef in
  app_m _ app !! "kick" = None /\
  (Add _ _ demo.NewSynthdef app "kick" tt).1 = None /\
  app_m _ (Add _ _ demo.NewSynthdef app "kick" tt).2 !! "kick" = Some "kick" /\
  size (app_m _ (Add _ _ demo.NewSynthdef app "kick" tt).2) = 1%nat.
Proof.
  cbn zeta.
  destruct (Add_fresh_lookup _ _ demo.NewSynthdef (New demo.Synthdef) "kick" tt eq_refl)
    as (H1 & H2 & _ & H3 & _).
  split; [reflexivity |]. split; [exact H1 |]. split; [exact H2 | exact H3].
Defined.

(** Synthdefs that remember the function they were made from: "kick" is
    registered with 2 and then with 3. *)
Lemma Adds_first_wins_witness :
  let app := New (string * nat) in
  app_m _ app !! "kick" = None /\
  ("kick" ∉ [("snare", 1%nat)].*1) /\
  app_m _ (Adds nat _ pair app ([("snare", 1%nat)] ++ ("kick", 2%nat) :: [("kick", 3%nat)]))
    !! "kick" = Some ("kick", 2%nat).
Proof.
  cbn zeta.
  assert (Hl1 : "kick" ∉ [("snare", 1%nat)].*1).
  { apply not_elem_of_cons. split; [discriminate | apply not_elem_of_nil]. }
  split; [reflexivity |]. split; [exact Hl1 |].
  exact (Adds_first_wins nat (string * nat) pair (New _) [("snare", 1%nat)]
           [("kick", 3%nat)] "kick" 2%nat eq_refl Hl1).
Defined.

Lemma List_names_witness :
  let app := mkApp demo.Synthdef true "" {[ "kick" := "kick" ]} in
  (forall m, demo.range_order m ≡ₚ (map_to_list m).*1) /\
  exists names,
    stdout _ (List _ demo.range_order app (mkWorld _ ["ready"] [])) = ["ready"] ++ names /\
    NoDup names /\
    (forall n, n ∈ names <-> is_Some (app_m _ app !! n)) /\
    played _ (List _ demo.range_order app (mkWorld _ ["ready"] [])) = [].
Proof.
  cbn zeta. split; [intros m; reflexivity |].
  exact (List_names _ demo.range_order (mkApp demo.Synthdef true "" {[ "kick" := "kick" ]})
           (mkWorld _ ["ready"] []) (fun m => reflexivity _)).
Defined.

Lemma List_after_Adds_witness :
  let more := [("kick", tt); ("snare", tt); ("kick", tt)] in
  (forall m, demo.range_order m ≡ₚ (map_to_list m).*1) /\
  exists names,
    stdout _ (List _ demo.range_order (Adds _ _ demo.NewSynthdef (New _) more)
                (mkWorld _ [] [])) = [] ++ names /\
    NoDup names /\
    (forall n, n ∈ names <-> n ∈ more.*1).
Proof.
  cbn zeta. split; [intros m; reflexivity |].
  exact (List_after_Adds _ _ demo.NewSynthdef demo.range_order
           [("kick", tt); ("snare", tt); ("kick", tt)] (mkWorld _ [] [])
           (fun m => reflexivity _)).
Defined.

Lemma Play_error_cases_witness :
  let app := mkApp demo.Synthdef false "" {[ "kick" := "kick" ]} in
  let w := mkWorld demo.Synthdef [] [] in
  let e := withMessage (NumError "ParseFloat" "loud" strconv.ErrSyntax) "parsing control value" in
  (Play _ demo.scid_reply app "kick" ["freq=440"; "amp=loud"] w).1 = Some e /\
  ((app_m _ app !! "kick" = None /\ e = unrecognized_sound "kick") \/
   (exists p, is_Some (app_m _ app !! "kick") /\ p ∈ ["freq=440"; "amp=loud"] /\
              malformed p /\ e = malformed_param p) \/
   (exists p a0 a1 rest Err,
      is_Some (app_m _ app !! "kick") /\ p ∈ ["freq=440"; "amp=loud"] /\
      strings.Split p "=" = a0 :: a1 :: rest /\
      (Err = strconv.ErrSyntax \/ Err = strconv.ErrRange) /\
      e = withMessage (NumError "ParseFloat" a1 Err) "parsing control value") \/
   (exists def ctls cause,
      app_m _ app !! "kick" = Some def /\
      range_params ["freq=440"; "amp=loud"] ∅ = inr ctls /\
      demo.scid_reply (played _ w) def ctls = Some cause /\
      e = withMessage cause "playing synthdef")).
Proof.
  cbn zeta.
  assert (He : (Play _ demo.scid_reply (mkApp demo.Synthdef false "" {[ "kick" := "kick" ]})
                  "kick" ["freq=440"; "amp=loud"] (mkWorld demo.Synthdef [] [])).1
               = Some (withMessage (NumError "ParseFloat" "loud" strconv.ErrSyntax)
                         "parsing control value")) by (vm_compute; reflexivity).
  split; [exact He |].
  exact (Play_error_cases _ demo.scid_reply _ _ _ _ _ He).
Defined.

Lemma range_params_entries_witness :
  let ctls : gmap string spec_float := <[ "b" := f32 2 0 ]> {[ "a" := f32 3 0 ]} in
  range_params ["a=1"; "b=2"; "a=3"] ∅ = inr ctls /\
  dom ctls = list_to_set (param_key <$> ["a=1"; "b=2"; "a=3"]) /\
  (size ctls <= 3)%nat.
Proof.
  cbn zeta.
  assert (Hr : range_params ["a=1"; "b=2"; "a=3"] ∅
               = inr (<[ "b" := f32 2 0 ]> {[ "a" := f32 3 0 ]})) by (vm_compute; reflexivity).
  destruct (range_params_entries _ _ Hr) as (H1 & _ & H2).
  split; [exact Hr |]. split; [exact H1 | exact H2].
Defined.

Lemma range_params_permutation_witness :
  let ctls : gmap string spec_float := <[ "b" := f32 2 0 ]> {[ "a" := f32 1 0 ]} in
  ["a=1"; "b=2"] ≡ₚ ["b=2"; "a=1"] /\
  NoDup (param_key <$> ["a=1"; "b=2"]) /\
  range_params ["a=1"; "b=2"] ∅ = inr ctls /\
  range_params ["b=2"; "a=1"] ∅ = inr ctls.
Proof.
  cbn zeta.
  assert (Hnd : NoDup (param_key <$> ["a=1"; "b=2"])).
  { apply NoDup_cons. split; [| apply NoDup_singleton].
    apply not_elem_of_cons. split; [discriminate | apply not_elem_of_nil]. }
  assert (Hr : range_params ["a=1"; "b=2"] ∅
               = inr (<[ "b" := f32 2 0 ]> {[ "a" := f32 1 0 ]})) by (vm_compute; reflexivity).
  split; [apply perm_swap |]. split; [exact Hnd |]. split; [exact Hr |].
  exact (proj1 (range_params_permutation demo.Synthdef demo.scid_reply
                  ["a=1"; "b=2"] ["b=2"; "a=1"] _ (perm_swap _ _ _) Hnd Hr)).
Defined.

Lemma Run_no_options_witness :
  let w := mkWorld demo.Synthdef [] [] in
  (EmptyString ∉ [("kick", tt)].*1) /\
  Run _ demo.scid_reply demo.range_order
    (Adds _ _ demo.NewSynthdef (New _) [("kick", tt)]) ["freq=440"] w
  = (Some (fundamental "unrecognized sound: "), w).
Proof.
  cbn zeta.
  assert (Hmore : EmptyString ∉ [("kick", tt)].*1).
  { apply not_elem_of_cons. split; [discriminate | apply not_elem_of_nil]. }
  split; [exact Hmore |].
  exact (proj1 (Run_no_options _ _ demo.NewSynthdef demo.scid_reply demo.range_order
                  demo.Quote [("kick", tt)] ["freq=440"] (mkWorld _ [] []) Hmore)).
Defined.



Lemma List_mu_refines_witness :
  let app := mkApp demo.Synthdef true "" {[ "kick" := "kick" ]} in
  let st := mkState demo.Synthdef app unlocked (mkWorld _ [] []) [] in
  writer (st_mu _ st) = false /\
  exists st',
    List_mu _ demo.range_order st = inr (tt, st') /\
    st_mu _ st' = unlocked /\
    st_log _ st' = [EvRLock _; EvPrintln _ "kick"; EvRUnlock _].
Proof.
  cbn zeta. split; [reflexivity |].
  destruct (List_mu_refines _ demo.range_order
              (mkState demo.Synthdef (mkApp demo.Synthdef true "" {[ "kick" := "kick" ]})
                 unlocked (mkWorld _ [] []) []) eq_refl)
    as (st' & H1 & _ & H2 & _ & _ & H3).
  exists st'. split; [exact H1 |]. split; [exact H2 | exact H3].
Defined.

Lemma Run_mu_refines_witness :
  let app := mkApp demo.Synthdef false "kick" {[ "kick" := "kick" ]} in
  let st := mkState demo.Synthdef app unlocked (mkWorld _ [] []) [] in
  writer (st_mu _ st) = false /\
  exists log,
    Run_mu _ demo.scid_reply demo.range_order ["freq=440"] st
    = inr (None, mkState _ app unlocked
                   (mkWorld _ [] [("kick", {[ "freq" := f32 440 0 ]})]) log) /\
    requests_of _ log = [("kick", {[ "freq" := f32 440 0 ]})].
Proof.
  cbn zeta. split; [reflexivity |].
  exact (Run_mu_refines _ demo.scid_reply demo.range_order
           (mkState demo.Synthdef (mkApp demo.Synthdef false "kick" {[ "kick" := "kick" ]})
              unlocked (mkWorld _ [] []) []) ["freq=440"] eq_refl).
Defined.

Lemma do_calls_free_witness :
  let calls := [CallAdd _ "kick" tt; CallPlay _ "kick" ["freq=440"]; CallList _;
                CallAdd _ "kick" tt; CallRun _ []] in
  let st := mkState demo.Synthdef (New _) unlocked (mkWorld _ [] []) [] in
  st_mu _ st = unlocked /\
  exists st',
    do_calls _ _ demo.NewSynthdef demo.scid_reply demo.range_order calls st = inr (tt, st') /\
    st_mu _ st' = unlocked /\
    st_app _ st' = Adds _ _ demo.NewSynthdef (New _) [("kick", tt); ("kick", tt)].
Proof.
  cbn zeta. split; [reflexivity |].
  exact (do_calls_free _ _ demo.NewSynthdef demo.scid_reply demo.range_order
           [CallAdd _ "kick" tt; CallPlay _ "kick" ["freq=440"]; CallList _;
            CallAdd _ "kick" tt; CallRun _ []]
           (mkState demo.Synthdef (New _) unlocked (mkWorld _ [] []) []) eq_refl).
Defined.

Lemma Play_after_Add_witness :
  let app := New (string * nat) in
  let ctls : gmap string spec_float := {[ "freq" := f32 440 0 ]} in
  (Add nat _ pair app "kick" 2%nat).1 = None /\
  range_params ["freq=440"] ∅ = inr ctls /\
  Play _ (fun _ _ _ => None)
    (Adds nat _ pair (Add nat _ pair app "kick" 2%nat).2 [("kick", 3%nat)])
    "kick" ["freq=440"] (mkWorld _ [] [])
  = (None, mkWorld _ [] [(("kick", 2%nat), ctls)]).
Proof.
  cbn zeta.
  assert (Hr : range_params ["freq=440"] ∅ = inr {[ "freq" := f32 440 0 ]})
    by (vm_compute; reflexivity).
  split; [reflexivity |]. split; [exact Hr |].
  exact (Play_after_Add nat (string * nat) pair (fun _ _ _ => None) (New _) "kick" 2%nat
           [("kick", 3%nat)] ["freq=440"] _ (mkWorld _ [] []) eq_refl Hr).
Defined.

Lemma Play_error_messages_witness :
  let app := mkApp demo.Synthdef false "" {[ "kick" := "kick" ]} in
  let w := mkWorld demo.Synthdef [] [] in
  let e := fundamental "could not parse key=value from bad" in
  (Play _ demo.scid_reply app "kick" ["bad"] w).1 = Some e /\
  ((exists t, Error demo.Quote e = "unrecognized sound: " +:+ t) \/
   (exists t, Error demo.Quote e = "could not parse key=value from " +:+ t) \/
   (exists t, Error demo.Quote e
              = "parsing control value: strconv.ParseFloat: parsing " +:+ t) \/
   (exists cause, Error demo.Quote e = "playing synthdef: " +:+ Error demo.Quote cause)).
Proof.
  cbn zeta.
  assert (He : (Play _ demo.scid_reply (mkApp demo.Synthdef false "" {[ "kick" := "kick" ]})
                  "kick" ["bad"] (mkWorld demo.Synthdef [] [])).1
               = Some (fundamental "could not parse key=value from bad"))
    by (vm_compute; reflexivity).
  split; [exact He |].
  exact (Play_error_messages _ demo.scid_reply demo.Quote _ _ _ _ _ He).
Defined.

Lemma Play_malformed_message_witness :
  let app := mkApp demo.Synthdef false "" {[ "kick" := "kick" ]} in
  let w := mkWorld demo.Synthdef [] [] in
  app_m _ app !! "kick" = Some "kick" /\
  malformed "bad" /\ contains_byte "%" "bad" = false /\
  Play _ demo.scid_reply app "kick" ["bad"] w
    = (Some (fundamental "could not parse key=value from bad"), w).
Proof.
  cbn zeta. split; [reflexivity |]. split; [reflexivity |]. split; [reflexivity |].
  exact (proj1 (Play_malformed_message _ demo.scid_reply demo.Quote
                  (mkApp demo.Synthdef false "" {[ "kick" := "kick" ]}) "kick" "kick" "bad"
                  (mkWorld _ [] []) eq_refl eq_refl eq_refl)).
Defined.

(** ** Where the code departs from the specification *)

(** C1 as the specification has it fails at "a=1=2": cut once, the value
    string would be "1=2", which is no number, and the parameter would be
    rejected; the code cuts it into three pieces and binds "a" to 1.  For
    "a=b=c" the value string that reaches [ParseFloat] is "b", not "b=c". *)
Lemma parse_param_two_equals_counterexample :
  (1 < count_byte "=" "a=1=2")%nat /\
  cut_first "a=1=2" = ["a"; "1=2"] /\
  parse_param_cut "a=1=2"
    = inl (Some (withMessage (NumError "ParseFloat" "1=2" strconv.ErrSyntax)
                   "parsing control value")) /\
  strings.Split "a=1=2" "=" = ["a"; "1"; "2"] /\
  parse_param "a=1=2" = inr ("a", f32 1 0) /\
  range_params ["a=1=2"] ∅ = inr {[ "a" := f32 1 0 ]} /\
  cut_first "a=b=c" = ["a"; "b=c"] /\
  strings.Split "a=b=c" "=" = ["a"; "b"; "c"] /\
  parse_param "a=b=c" <> parse_param_cut "a=b=c".
Proof.
  split; [vm_compute; lia |]. repeat (split; [reflexivity |]). by vm_compute.
Qed.

(** C5 at the parameter "%d", for a registered sound: the literal has no
    '=', [Play] returns the malformed-parameter error, and its message is
    "could not parse key=value from %!d(MISSING)", in which "%d" does not
    occur: [Errorf] has taken the parameter for a part of its format. *)
Lemma Play_malformed_percent :
  let app := mkApp demo.Synthdef false "" {[ "kick" := "kick" ]} in
  let w := mkWorld demo.Synthdef [] [] in
  malformed "%d" /\
  Play _ demo.scid_reply app "kick" ["%d"] w
    = (Some (fundamental "could not parse key=value from %!d(MISSING)"), w) /\
  Error demo.Quote (fundamental "could not parse key=value from %!d(MISSING)")
    = "could not parse key=value from %!d(MISSING)" /\
  includes "could not parse key=value from %!d(MISSING)" "%d" = false.
Proof. cbn zeta. by repeat split. Qed.

(** * Examples *)

(** ** The library models *)

Example Split_two_equals : strings.Split "a=b=c" "=" = ["a"; "b"; "c"].
Proof. reflexivity. Qed.

Example Split_empty_value : strings.Split "key=" "=" = ["key"; ""].
Proof. reflexivity. Qed.

Example Split_no_equals : strings.Split "bad" "=" = ["bad"].
Proof. reflexivity. Qed.

Example Split_empty_string : strings.Split "" "=" = [""].
Proof. reflexivity. Qed.

Example Sprintf_no_verb : fmt.Sprintf "100%" = "100%!(NOVERB)".
Proof. reflexivity. Qed.

Example Sprintf_missing : fmt.Sprintf "a %d b" = "a %!d(MISSING) b".
Proof. reflexivity. Qed.

Example Sprintf_percent : fmt.Sprintf "%%" = "%".
Proof. reflexivity. Qed.

Example Sprintf_bad_index : fmt.Sprintf "%[1]d" = "%!d(BADINDEX)".
Proof. reflexivity. Qed.

Example Sprintf_bad_width : fmt.Sprintf "%*d" = "%!(BADWIDTH)%!d(MISSING)".
Proof. reflexivity. Qed.

Example Sprintf_bad_prec : fmt.Sprintf "%.*d" = "%!(BADPREC)%!d(MISSING)".
Proof. reflexivity. Qed.

Example Sprintf_flags : fmt.Sprintf "%-5.2f|" = "%!f(MISSING)|".
Proof. reflexivity. Qed.

Example Sprintf_rune : fmt.Sprintf "x%é" = "x%!é(MISSING)".
Proof. reflexivity. Qed.

Example f32_values :
  f32 3 (-1) = S754_finite false 12582912 (-23) /\
  f32 (-2) 0 = S754_finite true 8388608 (-22) /\
  f32 2 0 = S754_finite false 8388608 (-22) /\
  float32 (f32 3 (-1)) = f32 3 (-1).
Proof. by vm_compute. Qed.

Example ParseFloat_1_5 : strconv.ParseFloat "1.5" 32 = (f32 3 (-1), None).
Proof. reflexivity. Qed.

Example ParseFloat_minus_2 : strconv.ParseFloat "-2" 32 = (f32 (-2) 0, None).
Proof. reflexivity. Qed.

Example ParseFloat_tenth :
  strconv.ParseFloat "0.1" 32 = (S754_finite false 13421773 (-27), None).
Proof. by vm_compute. Qed.

Example ParseFloat_leading_dot : strconv.ParseFloat ".5" 32 = (f32 1 (-1), None).
Proof. by vm_compute. Qed.

Example ParseFloat_hex : strconv.ParseFloat "0x1p-2" 32 = (f32 1 (-2), None).
Proof. by vm_compute. Qed.

Example ParseFloat_underscore : strconv.ParseFloat "1_000" 32 = (f32 1000 0, None).
Proof. by vm_compute. Qed.

Example ParseFloat_infinity : strconv.ParseFloat "-Infinity" 32 = (S754_infinity true, None).
Proof. by vm_compute. Qed.

Example ParseFloat_nan : strconv.ParseFloat "NaN" 32 = (S754_nan, None).
Proof. by vm_compute. Qed.

Example ParseFloat_max :
  strconv.ParseFloat "3.4028235e38" 32 = (S754_finite false 16777215 104, None).
Proof. by vm_compute. Qed.

Example ParseFloat_smallest :
  strconv.ParseFloat "1e-45" 32 = (S754_finite false 1 (-149), None).
Proof. by vm_compute. Qed.

Example ParseFloat_underflow : strconv.ParseFloat "1e-50" 32 = (S754_zero false, None).
Proof. by vm_compute. Qed.

Example ParseFloat_overflow :
  strconv.ParseFloat "3.4028236e38" 32
  = (S754_infinity false, Some (strconv.rangeError "ParseFloat" "3.4028236e38")).
Proof. by vm_compute. Qed.

Example ParseFloat_empty :
  strconv.ParseFloat "" 32 = (S754_zero false, Some (strconv.syntaxError "ParseFloat" "")).
Proof. reflexivity. Qed.

Example ParseFloat_letters :
  strconv.ParseFloat "xyz" 32 = (S754_zero false, Some (strconv.syntaxError "ParseFloat" "xyz")).
Proof. reflexivity. Qed.

Example ParseFloat_inf_prefix :
  strconv.ParseFloat "infi" 32 = (S754_zero false, Some (strconv.syntaxError "ParseFloat" "infi")).
Proof. by vm_compute. Qed.

Example ParseFloat_no_exponent_digits :
  strconv.ParseFloat "1.e" 32 = (S754_zero false, Some (strconv.syntaxError "ParseFloat" "1.e")).
Proof. by vm_compute. Qed.

Example ParseFloat_trailing_space :
  strconv.ParseFloat "1 " 32 = (S754_zero false, Some (strconv.syntaxError "ParseFloat" "1 ")).
Proof. by vm_compute. Qed.

(** ** The program *)

(** A registered sound with two controls: one request reaches the backend. *)
Example Play_kick :
  Play _ demo.scid_reply (mkApp demo.Synthdef false "" {[ "kick" := "kick" ]})
    "kick" ["freq=440"; "amp=0.5"] (mkWorld _ [] [])
  = (None, mkWorld _ [] [("kick", <[ "amp" := f32 1 (-1) ]> {[ "freq" := f32 440 0 ]})]).
Proof. by vm_compute. Qed.

(** A backend failure comes back wrapped with "playing synthdef". *)
Example Play_backend_error :
  Play demo.Synthdef (fun _ _ _ => Some (errorString "connection refused"))
    (mkApp _ false "" {[ "kick" := "kick" ]}) "kick" [] (mkWorld _ [] [])
  = (Some (withMessage (errorString "connection refused") "playing synthdef"),
     mkWorld _ [] [("kick", ∅)]).
Proof. by vm_compute. Qed.

(** The messages of the three kinds of error that [Play] makes itself. *)
Example Error_messages :
  Error demo.Quote (unrecognized_sound "missing") = "unrecognized sound: missing" /\
  Error demo.Quote (malformed_param "bad") = "could not parse key=value from bad" /\
  Error demo.Quote
    (withMessage (strconv.syntaxError "ParseFloat" "xyz") "parsing control value")
  = String.concat ""
      ["parsing control value: strconv.ParseFloat: parsing ";
       demo.Quote "xyz"; ": invalid syntax"].
Proof. by vm_compute. Qed.

(** With the list flag set the names are printed and nothing is played. *)
Example Run_list :
  let app :=
    (Add _ _ demo.NewSynthdef (Add _ _ demo.NewSynthdef (mkApp _ true "kick" ∅) "kick" tt).2
       "snare" tt).2 in
  exists names,
    Run _ demo.scid_reply demo.range_order app ["freq=440"] (mkWorld _ [] [])
    = (None, mkWorld _ names []) /\
    names ≡ₚ ["kick"; "snare"].
Proof. cbn zeta. eexists. split; [by vm_compute |]. by vm_compute; constructor. Qed.
